(** * all-keywords: the keyword table generator of pkg/cmd/all-keywords

    A shallow embedding of [pkg/cmd/all-keywords/main.go] and the
    properties of its scanner loop, its sort and its template.

    Go strings are byte strings: they are modelled by [string], whose
    characters ([ascii]) are the 256 byte values.  The two regular
    expressions of [main] only mention ASCII bytes, and an ASCII byte never
    occurs inside a multi-byte UTF-8 sequence, so matching them byte by byte
    gives the same result as Go's matching rune by rune. *)

From Stdlib Require Import String Ascii List Bool Arith NArith Lia.
From Stdlib Require Import Sorting.Sorted Sorting.Permutation.
From stdpp Require Import base option gmap strings.
Import ListNotations.

Local Open Scope string_scope.
Local Open Scope list_scope.

(** ** Bytes *)

Definition newline : ascii := "010"%char.
Definition carriage_return : ascii := "013"%char.

(** ['A' <= c && c <= 'Z'] *)
Definition isUpper (c : ascii) : bool :=
  (("A" <=? c) && (c <=? "Z"))%char.

(** ['a' <= c && c <= 'z'] *)
Definition isLower (c : ascii) : bool :=
  (("a" <=? c) && (c <=? "z"))%char.

(** [c < utf8.RuneSelf] *)
Definition isASCIIByte (c : ascii) : bool :=
  (N_of_ascii c <? 128)%N.

Fixpoint all_bytes (p : ascii -> bool) (s : string) : bool :=
  match s with
  | EmptyString => true
  | String c s' => p c && all_bytes p s'
  end.

Fixpoint any_byte (p : ascii -> bool) (s : string) : bool :=
  match s with
  | EmptyString => false
  | String c s' => p c || any_byte p s'
  end.

(** ** strings.ToLower

    The standard library function first looks whether the string is pure
    ASCII.  If it is, every byte ['A'..'Z'] is moved by ['a' - 'A'];
    otherwise the result is [strings.Map(unicode.ToLower, s)], which depends
    on the Unicode case tables: that part is a parameter, [MapToLower]. *)

Module strings.

(** [c += 'a' - 'A'] on an upper-case byte, other bytes are copied. *)
Definition lowerByte (c : ascii) : ascii :=
  if isUpper c then ascii_of_N (N_of_ascii c + 32) else c.

Fixpoint lowerASCII (s : string) : string :=
  match s with
  | EmptyString => EmptyString
  | String c s' => String (lowerByte c) (lowerASCII s')
  end.

Definition ToLower (MapToLower : string -> string) (s : string) : string :=
  if all_bytes isASCIIByte s then lowerASCII s else MapToLower s.

End strings.

(** ** regexp

    The compiled form of the two patterns of [main]: a pattern is an
    optional leading [^] and a sequence of instructions.  [matchAt] is the
    leftmost-first (backtracking) semantics of Go's [regexp] package: [.*]
    is greedy, it first tries to take one more byte and gives bytes back
    only when the rest of the pattern fails; [.] matches every byte but a
    line feed. *)

Module regexp.

Inductive inst : Type :=
| Lit (c : ascii)           (* a literal byte *)
| Class (lo hi : ascii)     (* [lo-hi] *)
| DotStar.                  (* .* *)

Record Regexp : Type := { bol : bool; prog : list inst }.

Fixpoint lits (s : string) : list inst :=
  match s with
  | EmptyString => []
  | String c s' => Lit c :: lits s'
  end.

(** The text matched by [p] at the beginning of [s], if [p] matches
    there. *)
Fixpoint matchAt (p : list inst) : string -> option string :=
  match p with
  | [] => fun _ => Some EmptyString
  | Lit c :: p' => fun s =>
      match s with
      | String a s' =>
          if Ascii.eqb a c then String a <$> matchAt p' s' else None
      | EmptyString => None
      end
  | Class lo hi :: p' => fun s =>
      match s with
      | String a s' =>
          if ((lo <=? a) && (a <=? hi))%char
          then String a <$> matchAt p' s' else None
      | EmptyString => None
      end
  | DotStar :: p' =>
      fix star (s : string) : option string :=
        match s with
        | String a s' =>
            if Ascii.eqb a newline then matchAt p' s
            else match star s' with
                 | Some m => Some (String a m)
                 | None => matchAt p' s
                 end
        | EmptyString => matchAt p' s
        end
  end.

(** The leftmost match of an unanchored pattern. *)
Fixpoint search (p : list inst) (s : string) : option string :=
  match matchAt p s with
  | Some m => Some m
  | None =>
      match s with
      | String _ s' => search p s'
      | EmptyString => None
      end
  end.

(** [re.FindString(s)]: the text of the leftmost match, and the empty
    string when there is no match. *)
Definition FindString (re : Regexp) (s : string) : string :=
  default EmptyString
    (if bol re then matchAt (prog re) s else search (prog re) s).

End regexp.

(** ** bufio.Scanner over os.Stdin

    The input stream is the bytes the reader delivers and, possibly, the
    error that ends it instead of a plain end of file.  The scanner uses
    the default split function [ScanLines] and the default buffer limit. *)

Record Stdin : Type := { bytes : string; failure : option string }.

Module bufio.

Definition MaxScanTokenSize : N := 65536.

Definition ErrTooLong : string := "bufio.Scanner: token too long".

(** [dropCR]: one trailing carriage return is removed. *)
Fixpoint dropCR (s : string) : string :=
  match s with
  | EmptyString => EmptyString
  | String c EmptyString =>
      if Ascii.eqb c carriage_return then EmptyString else s
  | String c s' => String c (dropCR s')
  end.

(** The stream cut after every line feed; what follows the last line
    feed is a line of its own when it is not empty (the final,
    non-terminated line of [ScanLines]). *)
Fixpoint rawLines (s : string) : list string :=
  match s with
  | EmptyString => []
  | String c s' =>
      if Ascii.eqb c newline then EmptyString :: rawLines s'
      else match rawLines s' with
           | [] => [String c EmptyString]
           | l :: ls => String c l :: ls
           end
  end.

(** The tokens [Scan] delivers, and the error it stops with when a line
    does not fit the buffer. *)
Fixpoint tokens (raw : list string) : list string * option string :=
  match raw with
  | [] => ([], None)
  | l :: raw' =>
      if (MaxScanTokenSize <=? N.of_nat (String.length l))%N
      then ([], Some ErrTooLong)
      else let (ts, e) := tokens raw' in (dropCR l :: ts, e)
  end.

(** The values of [scanner.Text()] over the successful calls of
    [scanner.Scan()], and the final [scanner.Err()].  After a read error
    the bytes already buffered are still split into lines. *)
Definition Scan (r : Stdin) : list string * option string :=
  let (ts, e) := tokens (rawLines (bytes r)) in
  (ts, match e with Some _ => e | None => failure r end).

End bufio.

(** ** sort.Slice

    [sort.Slice] is not stable and its algorithm is not fixed by its
    documentation; its contract is [SliceContract].  The executable model
    is the insertion sort it uses on short slices. *)

Module sort.

Section Slice.
Context {A : Type} (less : A -> A -> bool).

Fixpoint insertSorted (x : A) (l : list A) : list A :=
  match l with
  | [] => [x]
  | y :: l' => if less x y then x :: l else y :: insertSorted x l'
  end.

Fixpoint Slice (l : list A) : list A :=
  match l with
  | [] => []
  | x :: l' => insertSorted x (Slice l')
  end.

(** No element is [less] than one placed before it. *)
Definition ordered (l : list A) : Prop :=
  StronglySorted (fun a b => less b a = false) l.

Definition SliceContract (f : list A -> list A) : Prop :=
  forall l, Permutation l (f l) /\ ordered (f l).
End Slice.

End sort.

(** ** os.Stdout and text/template

    The output stream holds what was written so far.  A stream may refuse
    bytes: [room = Some (n, err)] is a stream that takes [n] more bytes and
    then fails with the error [err] (a full disk, say); [room = None] never
    fails. *)

Record Stdout : Type := { written : string; room : option (N * string) }.

Definition Write (w : Stdout) (p : string) : Stdout * option string :=
  match room w with
  | None => ({| written := written w +:+ p; room := None |}, None)
  | Some (n, err) =>
      let len := N.of_nat (String.length p) in
      if (len <=? n)%N
      then ({| written := written w +:+ p; room := Some ((n - len)%N, err) |},
            None)
      else ({| written := written w +:+ substring 0 (N.to_nat n) p;
               room := Some (0%N, err) |}, Some err)
  end.

Module template.

Section Nodes.
Context {E : Type}.

(** Inside [{{range .}}] the dot is one element: a body is made of
    text and of fields of the element. *)
Inductive action : Type :=
| Text (s : string)
| Field (f : E -> string).

Inductive node : Type :=
| Plain (s : string)
| Range (body : list action).

Definition evalAction (e : E) (a : action) : string :=
  match a with
  | Text s => s
  | Field f => f e
  end.

(** Every text node and every field is one call of [Write]; the first
    failing call ends the execution. *)
Fixpoint writeAll (ps : list string) (w : Stdout) : Stdout * option string :=
  match ps with
  | [] => (w, None)
  | p :: ps' =>
      match Write w p with
      | (w', None) => writeAll ps' w'
      | (w', Some err) => (w', Some err)
      end
  end.

Definition pieces (dot : list E) (n : node) : list string :=
  match n with
  | Plain s => [s]
  | Range body => flat_map (fun e => map (evalAction e) body) dot
  end.

Definition Execute (t : list node) (w : Stdout) (dot : list E)
  : Stdout * option string :=
  writeAll (flat_map (pieces dot) t) w.
End Nodes.

Arguments action : clear implicits.
Arguments node : clear implicits.

End template.

(** ** main.go *)

Definition keywordRE : regexp.Regexp :=
  {| regexp.bol := true;
     regexp.prog := regexp.DotStar :: regexp.lits "_keyword:" |}.

Definition pipeRE : regexp.Regexp :=
  {| regexp.bol := false;
     regexp.prog := [regexp.Class "A" "Z"; regexp.DotStar] |}.

Record entry : Type := { Lower : string; Match : string; Category : string }.

(** Category codes are for pg_get_keywords. *)
Definition categories : gmap string string :=
  list_to_map
    [ ("col_name_keyword:", "C");
      ("unreserved_keyword:", "U");
      ("type_func_name_keyword:", "T");
      ("cockroachdb_extra_type_func_name_keyword:", "T");
      ("reserved_keyword:", "R");
      ("cockroachdb_extra_reserved_keyword:", "R") ].

Definition nl : string := String newline EmptyString.
Definition tab : string := String "009"%char EmptyString.
Definition quote : string := String "034"%char EmptyString.

Definition unlines (ls : list string) : string :=
  fold_right (fun l rest => l +:+ nl +:+ rest) EmptyString ls.

(** The template after parsing: [{{range . -}}] and [{{end -}}] have removed
    the white space that follows them.  It is made of three texts and, between
    them, of the two [{{range .}}] blocks. *)
Definition tmplHead : string :=
  unlines
    [ "// Code generated by cmd/all-keywords. DO NOT EDIT.";
      "// GENERATED FILE DO NOT EDIT";
      "";
      "package lex";
      "";
      "var Keywords = map[string]struct {";
      tab +:+ "Tok int";
      tab +:+ "Cat string";
      "}{" ].

Definition tmplKeywords : list (template.action entry) :=
  [ template.Text quote; template.Field Lower;
    template.Text (quote +:+ ": { "); template.Field Match;
    template.Text (", " +:+ quote); template.Field Category;
    template.Text (quote +:+ " }," +:+ nl) ].

Definition tmplMiddle : string :=
  unlines
    [ "}";
      "";
      "// GetKeywordID returns the lex id of the SQL keyword k or IDENT if k is";
      "// not a keyword.";
      "func GetKeywordID(k string) int32 {";
      tab +:+ "// The previous implementation generated a map that did a string ->";
      tab +:+ "// id lookup. Various ideas were benchmarked and the implementation below";
      tab +:+ "// was the fastest of those, between 3% and 10% faster (at parsing, so the";
      tab +:+ "// scanning speedup is even more) than the map implementation.";
      tab +:+ "switch k {" ] +:+ tab.

Definition tmplCases : list (template.action entry) :=
  [ template.Text ("case " +:+ quote); template.Field Lower;
    template.Text (quote +:+ ": return "); template.Field Match;
    template.Text (nl +:+ tab) ].

Definition tmplFoot : string :=
  unlines
    [ "default: return IDENT";
      tab +:+ "}";
      "}" ].

Definition tmpl : list (template.node entry) :=
  [ template.Plain tmplHead;
    template.Range tmplKeywords;
    template.Plain tmplMiddle;
    template.Range tmplCases;
    template.Plain tmplFoot ].

(** What the generated [GetKeywordID] computes: the [switch] returns the
    token of the first case equal to [k], and [IDENT] by default.  A token
    is represented by its identifier. *)
Fixpoint GetKeywordID (cases : list entry) (k : string) : string :=
  match cases with
  | [] => "IDENT"
  | e :: cases' =>
      if String.eqb k (Lower e) then Match e else GetKeywordID cases' k
  end.

(** The three calls of [log.Fatal], with their arguments. *)
Inductive fatal : Type :=
| UnknownKeywordType (header : string)
| ReadingStandardInput (err : string)
| ExecuteFailed (err : string).

(** The text [log.Fatal] prints (after the time stamp of the logger). *)
Definition message (f : fatal) : string :=
  match f with
  | UnknownKeywordType header => "unknown keyword type:" +:+ header
  | ReadingStandardInput err => "reading standard input:" +:+ err
  | ExecuteFailed err => err
  end.

Inductive run (A : Type) : Type :=
| Done (a : A)
| Fatal (f : fatal).
Arguments Done {A} a.
Arguments Fatal {A} f.

(** The variables of [main] the loop updates. *)
Record locals : Type :=
  { keyword : bool;
    category : string;
    seen : gmap string bool;
    data : list entry }.

Definition start : locals :=
  {| keyword := false; category := ""; seen := ∅; data := [] |}.

Section Main.

(** [strings.Map(unicode.ToLower, s)], see [strings.ToLower]. *)
Variable MapToLower : string -> string.

(** One iteration of [for scanner.Scan()]. *)
Definition iteration (st : locals) (line : string) : run locals :=
  let match_ := regexp.FindString keywordRE line in
  if negb (String.eqb match_ "") then
    let category' := default "" (categories !! match_) in
    if String.eqb category' "" then Fatal (UnknownKeywordType match_)
    else Done {| keyword := true; category := category';
                 seen := seen st; data := data st |}
  else if String.eqb line "" then
    Done {| keyword := false; category := category st;
            seen := seen st; data := data st |}
  else
    let match_ := regexp.FindString pipeRE line in
    if keyword st && negb (String.eqb match_ "")
       && negb (default false (seen st !! match_))
    then
      Done {| keyword := keyword st; category := category st;
              seen := <[match_ := true]> (seen st);
              data := data st ++
                [ {| Lower := strings.ToLower MapToLower match_;
                     Match := match_;
                     Category := category st |} ] |}
    else Done st.

Fixpoint loop (lines : list string) (st : locals) : run locals :=
  match lines with
  | [] => Done st
  | line :: lines' =>
      match iteration st line with
      | Done st' => loop lines' st'
      | Fatal f => Fatal f
      end
  end.

(** [data[i].Match < data[j].Match] *)
Definition less (a b : entry) : bool := (Match a <? Match b)%string.

(** The scanning phase of [main]: the loop over the lines of the input,
    then the test of [scanner.Err()].  It ends with a fatal error or with
    the slice [data]. *)
Definition scanning (stdin : Stdin) : run (list entry) :=
  let (lines, err) := bufio.Scan stdin in
  match loop lines start with
  | Fatal f => Fatal f
  | Done st =>
      match err with
      | Some e => Fatal (ReadingStandardInput e)
      | None => Done (data st)
      end
  end.

(** [main], over the sort it is linked with: the output stream at the end
    of the run, and the fatal error when the run ends with one. *)
Definition main_with (Slice : list entry -> list entry)
    (stdin : Stdin) (stdout : Stdout) : Stdout * option fatal :=
  match scanning stdin with
  | Fatal f => (stdout, Some f)
  | Done data =>
      match template.Execute tmpl stdout (Slice data) with
      | (out, Some e) => (out, Some (ExecuteFailed e))
      | (out, None) => (out, None)
      end
  end.

Definition main : Stdin -> Stdout -> Stdout * option fatal :=
  main_with (sort.Slice less).

End Main.

(** * Definitions used in the statements *)

(** A line holds no line feed. *)
Definition oneLine (s : string) : bool :=
  all_bytes (fun c => negb (Ascii.eqb c newline)) s.

(** The bytes of [s] before its first line feed. *)
Fixpoint upToNewline (s : string) : string :=
  match s with
  | EmptyString => EmptyString
  | String c s' =>
      if Ascii.eqb c newline then EmptyString else String c (upToNewline s')
  end.

(** The suffix of [s] that begins at its first byte ['A'..'Z'], empty when
    there is none. *)
Fixpoint fromFirstUpper (s : string) : string :=
  match s with
  | EmptyString => EmptyString
  | String c s' => if isUpper c then s else fromFirstUpper s'
  end.

(** [seen[m]] *)
Definition isSeen (st : locals) (m : string) : bool :=
  default false (seen st !! m).

(** The variables of the loop agree with each other: [seen] holds exactly
    the [Match] of the entries of [data], no [Match] occurs twice, and
    every [Lower] is the lower-case form of its [Match]. *)
Record consistent (MapToLower : string -> string) (st : locals) : Prop :=
  { seen_data : forall m, isSeen st m = true <-> In m (map Match (data st));
    match_once : List.NoDup (map Match (data st));
    lower_of_match :
      Forall (fun e => Lower e = strings.ToLower MapToLower (Match e))
        (data st) }.

(** Ascending by [Match], in the byte-wise order of Go's [<] on strings. *)
Definition ascending (l : list entry) : Prop :=
  StronglySorted (fun a b => (Match a <? Match b)%string = true) l.

(** The inverse of [strings.lowerByte] on the bytes it moves. *)
Definition raiseByte (c : ascii) : ascii :=
  if isLower c then ascii_of_N (N_of_ascii c - 32) else c.

(** The strings of a list, one after the other. *)
Definition joined (ps : list string) : string :=
  fold_right String.append EmptyString ps.

(** The line of the [Keywords] literal and the [case] of [GetKeywordID]
    that the template prints for one entry. *)
Definition mapLine (e : entry) : string :=
  quote +:+ Lower e +:+ quote +:+ ": { " +:+ Match e +:+ ", " +:+ quote
    +:+ Category e +:+ quote +:+ " }," +:+ nl.

Definition caseLine (e : entry) : string :=
  "case " +:+ quote +:+ Lower e +:+ quote +:+ ": return " +:+ Match e
    +:+ nl +:+ tab.

(** The text of the generated file: the three texts of [tmpl] around the
    lines of the entries. *)
Definition generated (d : list entry) : string :=
  tmplHead +:+ joined (map mapLine d) +:+ tmplMiddle
    +:+ joined (map caseLine d) +:+ tmplFoot.

(** A stand-in for [strings.Map(unicode.ToLower, s)] in the examples: their
    strings are pure ASCII, and [strings.ToLower] does not reach it. *)
Definition asciiOnly : string -> string := fun s => s.

(** An output stream that is empty and never fails. *)
Definition emptyStdout : Stdout := {| written := ""; room := None |}.

(** The end-to-end example: six lines, two sections. *)
Definition exampleInput : Stdin :=
  {| bytes := unlines
       [ "reserved_keyword:"; "SELECT"; "WHERE"; "";
         "unreserved_keyword:"; "NAME" ];
     failure := None |}.

Definition entrySELECT : entry :=
  {| Lower := "select"; Match := "SELECT"; Category := "R" |}.
Definition entryWHERE : entry :=
  {| Lower := "where"; Match := "WHERE"; Category := "R" |}.
Definition entryNAME : entry :=
  {| Lower := "name"; Match := "NAME"; Category := "U" |}.

Definition exampleOutput : string :=
  unlines
    [ "// Code generated by cmd/all-keywords. DO NOT EDIT.";
      "// GENERATED FILE DO NOT EDIT";
      "";
      "package lex";
      "";
      "var Keywords = map[string]struct {";
      tab +:+ "Tok int";
      tab +:+ "Cat string";
      "}{";
      quote +:+ "name" +:+ quote +:+ ": { NAME, " +:+ quote +:+ "U" +:+ quote +:+ " },";
      quote +:+ "select" +:+ quote +:+ ": { SELECT, " +:+ quote +:+ "R" +:+ quote +:+ " },";
      quote +:+ "where" +:+ quote +:+ ": { WHERE, " +:+ quote +:+ "R" +:+ quote +:+ " },";
      "}";
      "";
      "// GetKeywordID returns the lex id of the SQL keyword k or IDENT if k is";
      "// not a keyword.";
      "func GetKeywordID(k string) int32 {";
      tab +:+ "// The previous implementation generated a map that did a string ->";
      tab +:+ "// id lookup. Various ideas were benchmarked and the implementation below";
      tab +:+ "// was the fastest of those, between 3% and 10% faster (at parsing, so the";
      tab +:+ "// scanning speedup is even more) than the map implementation.";
      tab +:+ "switch k {";
      tab +:+ "case " +:+ quote +:+ "name" +:+ quote +:+ ": return NAME";
      tab +:+ "case " +:+ quote +:+ "select" +:+ quote +:+ ": return SELECT";
      tab +:+ "case " +:+ quote +:+ "where" +:+ quote +:+ ": return WHERE";
      tab +:+ "default: return IDENT";
      tab +:+ "}";
      "}" ].

(** Two tokens of one section that differ by the case of their letters. *)
Definition caseClashInput : Stdin :=
  {| bytes := unlines [ "reserved_keyword:"; "SELECT"; "Select" ];
     failure := None |}.

(** A token without lower-case letter, all of whose bytes are ASCII: the
    usual form of a token of the grammar. *)
Definition plainToken (m : string) : bool :=
  all_bytes (fun c => isASCIIByte c && negb (isLower c)) m.

(** [strings.HasSuffix(s, w)] *)
Fixpoint endsWith (w s : string) : bool :=
  String.eqb s w ||
  match s with
  | EmptyString => false
  | String _ s' => endsWith w s'
  end.

(** The variables of the loop inside a section of category [c], with the
    entries [d] recorded so far. *)
Definition inSection (c : string) (d : list entry) : locals :=
  {| keyword := true; category := c;
     seen := list_to_map (map (fun e => (Match e, true)) d); data := d |}.

(** Following the words of the specification, "the first uppercase-led
    word-like substring" of a line: the letters, digits and underscores that
    begin at the first upper-case letter. *)
Definition isWordByte (c : ascii) : bool :=
  isUpper c || isLower c || (("0" <=? c) && (c <=? "9"))%char
  || Ascii.eqb c "_".

Fixpoint wordPrefix (s : string) : string :=
  match s with
  | EmptyString => EmptyString
  | String c s' =>
      if isWordByte c then String c (wordPrefix s') else EmptyString
  end.

Definition firstUpperWord (line : string) : string :=
  wordPrefix (fromFirstUpper line).

(** White space other than the line feed. *)
Definition isSpace (c : ascii) : bool :=
  match c with
  | "009" | "011" | "012" | "013" | " " => true
  | _ => false
  end%char.

(** The same sort on the reversed slice: another function that fulfils the
    contract of [sort.Slice]. *)
Definition SliceReversed (l : list entry) : list entry :=
  sort.Slice less (rev l).

(** An output stream that fails after ten bytes. *)
Definition tenBytes : Stdout :=
  {| written := "";
     room := Some (10%N, "write /dev/stdout: no space left on device") |}.

(** A line that begins with a capital letter outside ASCII, U+00C9, whose
    UTF-8 encoding is the bytes 195 and 137. *)
Definition accentedLine : string :=
  String "195"%char (String "137"%char "cole").

(** An input whose only line is a header unknown to the table. *)
Definition unknownHeaderInput : Stdin :=
  {| bytes := unlines [ "foo_keyword:"; "SELECT" ]; failure := None |}.

(** A section with a line of one space between its two tokens, and the
    same section with an empty line there. *)
Definition spaceLineInput : Stdin :=
  {| bytes := unlines [ "reserved_keyword:"; "SELECT"; " "; "WHERE" ];
     failure := None |}.

Definition emptyLineInput : Stdin :=
  {| bytes := unlines [ "reserved_keyword:"; "SELECT"; ""; "WHERE" ];
     failure := None |}.

(** The example input cut by a read error of the stream. *)
Definition brokenInput : Stdin :=
  {| bytes := unlines [ "reserved_keyword:"; "SELECT" ];
     failure := Some "read /dev/stdin: input/output error" |}.

(** The token NAME in two sections, first as a reserved keyword. *)
Definition twoSectionsInput : Stdin :=
  {| bytes := unlines
       [ "reserved_keyword:"; "  NAME"; "";
         "unreserved_keyword:"; "  NAME"; "| SELECT" ];
     failure := None |}.

(** * Definitions for the properties of whole runs *)

(** [keywordRE.FindString(line) != ""]: the first branch of the loop. *)
Definition isHeader (line : string) : bool :=
  negb (String.eqb (regexp.FindString keywordRE line) "").

(** A line of the third branch of the loop: not a header, not empty. *)
Definition isKeywordLine (line : string) : bool :=
  negb (isHeader line) && negb (String.eqb line "").

(** The category codes of the table. *)
Definition codes : list string := ["C"; "U"; "T"; "R"].

Definition startsUpper (m : string) : bool :=
  match m with
  | String c _ => isUpper c
  | EmptyString => false
  end.

(** What every entry of [data] looks like. *)
Definition wellFormed (MapToLower : string -> string) (e : entry) : Prop :=
  In (Category e) codes
  /\ startsUpper (Match e) = true
  /\ oneLine (Match e) = true
  /\ Lower e = strings.ToLower MapToLower (Match e).

(** After the lines [lines], a section of category [c] is open: its header
    is among the lines, and only keyword lines follow it. *)
Definition sectionOpen (lines : list string) (c : string) : Prop :=
  exists l1 hdr l2,
    lines = l1 ++ hdr :: l2
    /\ categories !! regexp.FindString keywordRE hdr = Some c
    /\ Forall (fun l => isKeywordLine l = true) l2.

(** The entry [e] comes from a keyword line [kw] of [lines], in the section
    opened by the header [hdr]: the table gives its category for [hdr], and
    its [Match] is what [pipeRE] finds in [kw]. *)
Definition fromSection (lines : list string) (e : entry) : Prop :=
  exists l1 hdr l2 kw l3,
    lines = l1 ++ hdr :: l2 ++ kw :: l3
    /\ categories !! regexp.FindString keywordRE hdr = Some (Category e)
    /\ Forall (fun l => isKeywordLine l = true) l2
    /\ isKeywordLine kw = true
    /\ Match e = regexp.FindString pipeRE kw.

(** A line the scanner gives back as it was written: no line feed in it, no
    carriage return at its end, and short enough for the buffer even with a
    carriage return added. *)
Definition scannable (l : string) : bool :=
  oneLine l
  && (N.of_nat (String.length l) + 1 <? bufio.MaxScanTokenSize)%N
  && String.eqb (bufio.dropCR l) l.

(** Lines ended by carriage return and line feed. *)
Definition crlf : string := String carriage_return nl.

Definition unlinesCRLF (ls : list string) : string :=
  fold_right (fun l rest => l +:+ crlf +:+ rest) EmptyString ls.

(** The third branch of the loop body, on the text [pipeRE] found in the
    line. *)
Definition recordMatch (MapToLower : string -> string)
    (st : locals) (match_ : string) : locals :=
  if keyword st && negb (String.eqb match_ "") && negb (isSeen st match_)
  then {| keyword := keyword st; category := category st;
          seen := <[match_ := true]> (seen st);
          data := data st ++
            [ {| Lower := strings.ToLower MapToLower match_;
                 Match := match_;
                 Category := category st |} ] |}
  else st.

(** The loop over keyword lines only. *)
Definition recordLines (MapToLower : string -> string)
    (lines : list string) (st : locals) : locals :=
  fold_left
    (fun s line => recordMatch MapToLower s (regexp.FindString pipeRE line))
    lines st.

(** Two states of the loop with the same flag, category and [seen], and
    with the same entries in some order. *)
Definition sameEntries (st1 st2 : locals) : Prop :=
  keyword st1 = keyword st2 /\ category st1 = category st2
  /\ seen st1 = seen st2 /\ Permutation (data st1) (data st2).

(** Two results of the loop that agree up to the order of the entries. *)
Definition sameResult (r1 r2 : run locals) : Prop :=
  match r1, r2 with
  | Done st1, Done st2 => sameEntries st1 st2
  | Fatal f1, Fatal f2 => f1 = f2
  | _, _ => False
  end.

(** A line as long as the buffer of the scanner. *)
Definition longLine : string :=
  N.iter bufio.MaxScanTokenSize (String "x"%char) EmptyString.

Definition longLineInput : Stdin :=
  {| bytes := unlines ["reserved_keyword:"] +:+ longLine +:+ nl;
     failure := None |}.
(** * Strings *)

Lemma app_cons (a : ascii) (s t : string) :
  String a s +:+ t = String a (s +:+ t).
Proof. reflexivity. Qed.

Lemma app_empty_l (s : string) : "" +:+ s = s.
Proof. reflexivity. Qed.

Lemma app_empty_r (s : string) : s +:+ "" = s.
Proof. induction s as [|a s IH]; [reflexivity|]. now rewrite app_cons, IH. Qed.

Lemma app_assoc_s (s t u : string) : (s +:+ t) +:+ u = s +:+ t +:+ u.
Proof.
  induction s as [|a s IH]; [reflexivity|]. now rewrite !app_cons, IH.
Qed.

Lemma all_bytes_app p (s t : string) :
  all_bytes p (s +:+ t) = all_bytes p s && all_bytes p t.
Proof.
  induction s as [|a s IH]; [reflexivity|].
  rewrite app_cons. simpl. now rewrite IH, andb_assoc.
Qed.

Lemma prefix_app (w s : string) :
  String.prefix w s = true <-> exists post, s = w +:+ post.
Proof.
  revert s; induction w as [|a w IH]; intros s.
  - split; [intros _; now exists s|intros _; now destruct s].
  - destruct s as [|b s]; simpl.
    + split; [discriminate|intros [post H]; discriminate].
    + destruct (ascii_dec a b) as [->|Hab].
      * rewrite IH. split; intros [post H]; exists post.
        -- now rewrite app_cons, H.
        -- rewrite app_cons in H. now injection H.
      * split; [discriminate|]. intros [post H]. rewrite app_cons in H.
        injection H as -> _. now elim Hab.
Qed.

(** * Regular expressions *)

Lemma oneLine_cons a s :
  oneLine (String a s) = negb (Ascii.eqb a newline) && oneLine s.
Proof. reflexivity. Qed.

Lemma matchAt_star_cons p a s :
  regexp.matchAt (regexp.DotStar :: p) (String a s) =
  if Ascii.eqb a newline then regexp.matchAt p (String a s)
  else match regexp.matchAt (regexp.DotStar :: p) s with
       | Some m => Some (String a m)
       | None => regexp.matchAt p (String a s)
       end.
Proof. reflexivity. Qed.

Lemma matchAt_star_empty p :
  regexp.matchAt (regexp.DotStar :: p) "" = regexp.matchAt p "".
Proof. reflexivity. Qed.

Lemma matchAt_lits w s :
  regexp.matchAt (regexp.lits w) s =
  if String.prefix w s then Some w else None.
Proof.
  revert s; induction w as [|c w IH]; intros s.
  - now destruct s.
  - destruct s as [|a s]; simpl; [reflexivity|].
    destruct (ascii_dec c a) as [->|Hca].
    + rewrite Ascii.eqb_refl, IH. now destruct (String.prefix w s).
    + destruct (Ascii.eqb_spec a c) as [->|_]; [now elim Hca|reflexivity].
Qed.

Lemma upToNewline_oneLine s : oneLine s = true -> upToNewline s = s.
Proof.
  induction s as [|a s IH]; [reflexivity|].
  rewrite oneLine_cons. intros [Ha Hs]%andb_true_iff.
  change (upToNewline (String a s)) with
    (if Ascii.eqb a newline then "" else String a (upToNewline s)).
  destruct (Ascii.eqb a newline); [discriminate|]. now rewrite IH.
Qed.

Lemma matchAt_star_nil s :
  regexp.matchAt [regexp.DotStar] s = Some (upToNewline s).
Proof.
  induction s as [|a s IH]; [reflexivity|].
  rewrite matchAt_star_cons, IH. simpl.
  now destruct (Ascii.eqb a newline).
Qed.

(** [^.*w]: no match means that [w] occurs nowhere after a prefix free of
    line feeds. *)
Lemma star_lits_None w s :
  regexp.matchAt (regexp.DotStar :: regexp.lits w) s = None ->
  forall pre post, s = pre +:+ w +:+ post -> oneLine pre = true -> False.
Proof.
  induction s as [|a s IH]; intros Hm pre post Hs Hpre.
  - rewrite matchAt_star_empty, matchAt_lits in Hm.
    destruct pre; [|discriminate]. rewrite app_empty_l in Hs.
    assert (String.prefix w "" = true) as Hp by (apply prefix_app; eauto).
    now rewrite Hp in Hm.
  - rewrite matchAt_star_cons, matchAt_lits in Hm.
    destruct pre as [|b pre].
    + rewrite app_empty_l in Hs.
      assert (String.prefix w (String a s) = true) as Hp
        by (apply prefix_app; eauto).
      rewrite Hp in Hm.
      destruct (Ascii.eqb a newline); [discriminate|].
      now destruct (regexp.matchAt _ s).
    + rewrite app_cons in Hs. injection Hs as -> Hs.
      rewrite oneLine_cons in Hpre.
      apply andb_true_iff in Hpre as [Hb Hpre].
      destruct (Ascii.eqb b newline); [discriminate|].
      destruct (regexp.matchAt _ s) eqn:E; [discriminate|].
      now apply (IH eq_refl pre post).
Qed.

(** [^.*w]: the match is the longest prefix that ends with [w], among those
    whose part before [w] is free of line feeds. *)
Lemma star_lits_Some w s m :
  regexp.matchAt (regexp.DotStar :: regexp.lits w) s = Some m ->
  exists pre post,
    s = pre +:+ w +:+ post /\ oneLine pre = true /\ m = pre +:+ w /\
    forall pre' post', s = pre' +:+ w +:+ post' -> oneLine pre' = true ->
      String.length pre' <= String.length pre.
Proof.
  revert m; induction s as [|a s IH]; intros m Hm.
  - rewrite matchAt_star_empty, matchAt_lits in Hm.
    destruct (String.prefix w "") eqn:Hp; [|discriminate].
    injection Hm as <-. apply prefix_app in Hp as [post Hp].
    exists "", post. repeat split; try assumption.
    intros [|b pre'] post' H _; [simpl; lia|discriminate].
  - rewrite matchAt_star_cons, matchAt_lits in Hm.
    assert (Hhere : (if String.prefix w (String a s) then Some w else None)
                    = Some m ->
              (forall pre' post', s = pre' +:+ w +:+ post' ->
                 oneLine pre' = true -> Ascii.eqb a newline = false -> False) ->
              exists pre post,
                String a s = pre +:+ w +:+ post /\ oneLine pre = true /\
                m = pre +:+ w /\
                forall pre' post', String a s = pre' +:+ w +:+ post' ->
                  oneLine pre' = true ->
                  String.length pre' <= String.length pre).
    { intros H Hno.
      destruct (String.prefix w (String a s)) eqn:Hp; [|discriminate].
      injection H as <-. apply prefix_app in Hp as [post Hp].
      exists "", post. repeat split; try assumption.
      intros [|b pre'] post' H Hpre'; [simpl; lia|exfalso].
      rewrite app_cons in H. injection H as -> H.
      rewrite oneLine_cons in Hpre'.
      apply andb_true_iff in Hpre' as [Hb Hpre'].
      apply negb_true_iff in Hb. eauto. }
    destruct (Ascii.eqb a newline) eqn:Ea.
    + apply Hhere; [assumption|]. intros; discriminate.
    + destruct (regexp.matchAt _ s) as [m'|] eqn:E.
      * injection Hm as <-.
        destruct (IH m' eq_refl) as (pre & post & Hs & Hpre & -> & Hmax).
        exists (String a pre), post. rewrite !app_cons, oneLine_cons, Ea.
        repeat split; try assumption; [now f_equal|].
        intros [|b pre'] post' H Hpre'; [simpl; lia|].
        rewrite app_cons in H. injection H as -> H.
        rewrite oneLine_cons in Hpre'.
        apply andb_true_iff in Hpre' as [_ Hpre'].
        simpl. apply le_n_S. eauto.
      * apply Hhere; [assumption|].
        intros pre' post' H Hpre' _. eapply star_lits_None; eauto.
Qed.

Lemma search_pipeRE s :
  regexp.search (regexp.prog pipeRE) s =
  if any_byte isUpper s then Some (upToNewline (fromFirstUpper s)) else None.
Proof.
  induction s as [|a s IH]; [reflexivity|].
  change (regexp.search (regexp.prog pipeRE) (String a s)) with
    (match (if isUpper a
            then String a <$> regexp.matchAt [regexp.DotStar] s else None) with
     | Some m => Some m
     | None => regexp.search (regexp.prog pipeRE) s
     end).
  rewrite matchAt_star_nil, IH. simpl.
  destruct (isUpper a) eqn:Ea; simpl; [|reflexivity].
  destruct (Ascii.eqb_spec a newline) as [->|_]; [discriminate|reflexivity].
Qed.

Lemma FindString_pipeRE line :
  regexp.FindString pipeRE line = upToNewline (fromFirstUpper line).
Proof.
  unfold regexp.FindString. simpl regexp.bol. cbv iota.
  rewrite search_pipeRE.
  destruct (any_byte isUpper line) eqn:E; [reflexivity|].
  induction line as [|a s IH]; [reflexivity|].
  simpl in E |- *. apply orb_false_iff in E as [-> E]. auto.
Qed.

Lemma fromFirstUpper_split s :
  exists pre, s = pre +:+ fromFirstUpper s /\ any_byte isUpper pre = false.
Proof.
  induction s as [|a s (pre & IH & Hpre)]; [now exists ""|].
  simpl. destruct (isUpper a) eqn:Ea; [now exists ""|].
  exists (String a pre). rewrite app_cons, <- IH. simpl. now rewrite Ea.
Qed.

Lemma fromFirstUpper_head s :
  any_byte isUpper s = true ->
  exists c rest, fromFirstUpper s = String c rest /\ isUpper c = true.
Proof.
  induction s as [|a s IH]; simpl; [discriminate|].
  destruct (isUpper a) eqn:Ea; eauto.
Qed.

Lemma fromFirstUpper_none s :
  any_byte isUpper s = false -> fromFirstUpper s = "".
Proof.
  induction s as [|a s IH]; simpl; [reflexivity|].
  intros [-> E]%orb_false_iff. auto.
Qed.

Lemma fromFirstUpper_oneLine s :
  oneLine s = true -> oneLine (fromFirstUpper s) = true.
Proof.
  induction s as [|a s IH]; [reflexivity|].
  intros H. simpl. destruct (isUpper a); [assumption|].
  rewrite oneLine_cons in H. apply andb_true_iff in H as [_ H]. auto.
Qed.

Lemma FindString_keywordRE line :
  regexp.FindString keywordRE line =
  default "" (regexp.matchAt (regexp.DotStar :: regexp.lits "_keyword:") line).
Proof. reflexivity. Qed.

Lemma app_not_empty (pre w : string) : w <> "" -> pre +:+ w <> "".
Proof. destruct pre; [now rewrite app_empty_l|discriminate]. Qed.

(** * Byte-wise order of strings *)

Lemma ascii_compare_refl a : Ascii.compare a a = Eq.
Proof. apply N.compare_refl. Qed.

Lemma string_compare_refl s : (s ?= s)%string = Eq.
Proof.
  induction s as [|a s IH]; [reflexivity|]. simpl.
  now rewrite ascii_compare_refl.
Qed.

Lemma string_compare_trans s1 s2 s3 :
  (s1 ?= s2)%string = Lt -> (s2 ?= s3)%string = Lt -> (s1 ?= s3)%string = Lt.
Proof.
  revert s2 s3; induction s1 as [|a1 s1 IH]; intros [|a2 s2] [|a3 s3];
    simpl; try congruence.
  destruct (Ascii.compare a1 a2) eqn:E12; try discriminate.
  - apply Ascii.compare_eq_iff in E12 as ->.
    destruct (Ascii.compare a2 a3); try congruence. apply IH.
  - destruct (Ascii.compare a2 a3) eqn:E23; try discriminate.
    + apply Ascii.compare_eq_iff in E23 as <-. now rewrite E12.
    + intros _ _. unfold Ascii.compare in *.
      rewrite N.compare_lt_iff in *.
      assert (N_of_ascii a1 < N_of_ascii a3)%N as H by lia.
      apply N.compare_lt_iff in H. now rewrite H.
Qed.

Lemma ltb_trans s1 s2 s3 :
  (s1 <? s2)%string = true -> (s2 <? s3)%string = true ->
  (s1 <? s3)%string = true.
Proof.
  unfold String.ltb.
  destruct (s1 ?= s2)%string eqn:E12; try discriminate.
  destruct (s2 ?= s3)%string eqn:E23; try discriminate.
  now rewrite (string_compare_trans _ _ _ E12 E23).
Qed.

Lemma ltb_asym s1 s2 : (s1 <? s2)%string = true -> (s2 <? s1)%string = false.
Proof.
  unfold String.ltb. rewrite (String.compare_antisym s2 s1).
  now destruct (s1 ?= s2)%string.
Qed.

Lemma ltb_total s1 s2 :
  (s1 <? s2)%string = false -> (s2 <? s1)%string = false -> s1 = s2.
Proof.
  unfold String.ltb. rewrite (String.compare_antisym s2 s1).
  destruct (s1 ?= s2)%string eqn:E; try discriminate.
  intros _ _. now apply String.compare_eq_iff.
Qed.

(** * Sorting *)

Section SliceFacts.
Context {A : Type} (less : A -> A -> bool).
Hypothesis less_trans :
  forall a b c, less a b = true -> less b c = true -> less a c = true.
Hypothesis less_asym : forall a b, less a b = true -> less b a = false.

Lemma insertSorted_perm x l : Permutation (x :: l) (sort.insertSorted less x l).
Proof using Type.
  induction l as [|y l IH]; simpl; [reflexivity|].
  destruct (less x y); [reflexivity|].
  rewrite perm_swap. now constructor.
Qed.

Lemma Slice_perm l : Permutation l (sort.Slice less l).
Proof using Type.
  induction l as [|x l IH]; simpl; [constructor|].
  rewrite <- insertSorted_perm. now constructor.
Qed.

Lemma insertSorted_ordered x l :
  sort.ordered less l -> sort.ordered less (sort.insertSorted less x l).
Proof using less_trans less_asym.
  unfold sort.ordered.
  induction 1 as [|y l Hl IH Hy]; simpl; [repeat constructor|].
  destruct (less x y) eqn:Exy.
  - constructor; [now constructor|]. constructor; [now apply less_asym|].
    rewrite List.Forall_forall in Hy |- *. intros z Hz.
    destruct (less z x) eqn:Ezx; [|reflexivity].
    pose proof (less_trans _ _ _ Ezx Exy) as Hzy.
    rewrite (Hy z Hz) in Hzy. discriminate.
  - constructor; [assumption|].
    rewrite List.Forall_forall in Hy |- *. intros z Hz.
    apply (Permutation_in _ (Permutation_sym (insertSorted_perm x l))) in Hz.
    destruct Hz as [<-|Hz]; auto.
Qed.

Lemma Slice_ordered l : sort.ordered less (sort.Slice less l).
Proof using less_trans less_asym.
  induction l as [|x l IH]; simpl; [constructor|].
  now apply insertSorted_ordered.
Qed.

Lemma Slice_contract : sort.SliceContract less (sort.Slice less).
Proof using less_trans less_asym.
  intros l. split; [apply Slice_perm|apply Slice_ordered].
Qed.
End SliceFacts.

Lemma less_trans a b c : less a b = true -> less b c = true -> less a c = true.
Proof. apply ltb_trans. Qed.

Lemma less_asym a b : less a b = true -> less b a = false.
Proof. apply ltb_asym. Qed.

(** With no [Match] twice, the order left by any sort is strict. *)
Lemma ordered_ascending l :
  List.NoDup (map Match l) -> sort.ordered less l -> ascending l.
Proof.
  unfold sort.ordered, ascending.
  induction l as [|a l IH]; intros Hnd Hord; [constructor|].
  inversion_clear Hnd as [|? ? Ha Hnd']. inversion_clear Hord as [|? ? Hl Hal].
  constructor; [auto|].
  rewrite List.Forall_forall in Hal |- *. intros b Hb.
  destruct (Match a <? Match b)%string eqn:E; [reflexivity|exfalso].
  apply Ha. rewrite (ltb_total _ _ E (Hal b Hb)). now apply in_map.
Qed.

(** Two ascending lists with the same entries are equal. *)
Lemma ascending_unique l1 l2 :
  ascending l1 -> ascending l2 -> Permutation l1 l2 -> l1 = l2.
Proof.
  unfold ascending. intros H1; revert l2.
  induction H1 as [|a l1 Hl1 IH Ha]; intros l2 H2 Hp.
  - now apply Permutation_nil in Hp.
  - destruct H2 as [|b l2 Hl2 Hb].
    + now apply Permutation_sym, Permutation_nil in Hp.
    + assert (a = b) as ->.
      { assert (In a (b :: l2)) as [<-|Ha2]
          by (eapply Permutation_in; [exact Hp|now left]); [reflexivity|].
        assert (In b (a :: l1)) as [<-|Hb1]
          by (eapply Permutation_in; [symmetry; exact Hp|now left]);
          [reflexivity|].
        rewrite List.Forall_forall in Ha, Hb.
        specialize (Ha b Hb1). specialize (Hb a Ha2).
        apply ltb_asym in Ha. congruence. }
      f_equal. apply IH; [assumption|]. now apply Permutation_cons_inv in Hp.
Qed.

(** * The header table *)

Lemma categories_lookup h c :
  categories !! h = Some c ->
  In (h, c)
    [ ("col_name_keyword:", "C"); ("unreserved_keyword:", "U");
      ("type_func_name_keyword:", "T");
      ("cockroachdb_extra_type_func_name_keyword:", "T");
      ("reserved_keyword:", "R");
      ("cockroachdb_extra_reserved_keyword:", "R") ].
Proof.
  intros H. apply list_elem_of_In. now apply elem_of_list_to_map_2 in H.
Qed.

Lemma categories_not_empty h c : categories !! h = Some c -> c <> "".
Proof.
  intros H%categories_lookup. simpl in H.
  repeat (destruct H as [H|H]; [injection H as _ <-; discriminate|]).
  destruct H.
Qed.

(** * One iteration of the loop *)

Section Loop.
Variable MapToLower : string -> string.

Lemma iteration_header st line :
  regexp.FindString keywordRE line <> "" ->
  iteration MapToLower st line =
  match categories !! regexp.FindString keywordRE line with
  | Some c => Done {| keyword := true; category := c;
                      seen := seen st; data := data st |}
  | None => Fatal (UnknownKeywordType (regexp.FindString keywordRE line))
  end.
Proof.
  intros Hh. unfold iteration.
  apply String.eqb_neq in Hh. rewrite Hh. simpl.
  destruct (categories !! _) as [c|] eqn:E; simpl; [|reflexivity].
  apply categories_not_empty, String.eqb_neq in E. now rewrite E.
Qed.

Lemma iteration_empty st :
  iteration MapToLower st "" =
  Done {| keyword := false; category := category st;
          seen := seen st; data := data st |}.
Proof. reflexivity. Qed.

Lemma iteration_keyword st line :
  regexp.FindString keywordRE line = "" -> line <> "" ->
  iteration MapToLower st line =
  let match_ := regexp.FindString pipeRE line in
  if keyword st && negb (String.eqb match_ "") && negb (isSeen st match_)
  then Done {| keyword := keyword st; category := category st;
               seen := <[match_ := true]> (seen st);
               data := data st ++
                 [ {| Lower := strings.ToLower MapToLower match_;
                      Match := match_;
                      Category := category st |} ] |}
  else Done st.
Proof.
  intros Hh Hl. unfold iteration. rewrite Hh.
  apply String.eqb_neq in Hl. now rewrite Hl.
Qed.

(** The three branches of the loop body. *)
Lemma iteration_cases st line (P : run locals -> Prop) :
  (regexp.FindString keywordRE line <> "" ->
   P (match categories !! regexp.FindString keywordRE line with
      | Some c => Done {| keyword := true; category := c;
                          seen := seen st; data := data st |}
      | None =>
          Fatal (UnknownKeywordType (regexp.FindString keywordRE line))
      end)) ->
  (line = "" ->
   P (Done {| keyword := false; category := category st;
              seen := seen st; data := data st |})) ->
  (regexp.FindString keywordRE line = "" -> line <> "" ->
   keyword st = true -> regexp.FindString pipeRE line <> "" ->
   isSeen st (regexp.FindString pipeRE line) = false ->
   P (Done {| keyword := true; category := category st;
              seen := <[regexp.FindString pipeRE line := true]> (seen st);
              data := data st ++
                [ {| Lower := strings.ToLower MapToLower
                                (regexp.FindString pipeRE line);
                     Match := regexp.FindString pipeRE line;
                     Category := category st |} ] |})) ->
  (regexp.FindString keywordRE line = "" -> line <> "" -> P (Done st)) ->
  P (iteration MapToLower st line).
Proof.
  intros Hhead Hempty Hrec Hskip.
  destruct (string_dec (regexp.FindString keywordRE line) "") as [Hh|Hh].
  - destruct (string_dec line "") as [->|Hl].
    + rewrite iteration_empty. auto.
    + rewrite iteration_keyword by assumption. cbv zeta.
      destruct (keyword st) eqn:Ek; simpl; [|auto].
      destruct (String.eqb_spec (regexp.FindString pipeRE line) "")
        as [Hm|Hm]; simpl; [auto|].
      destruct (isSeen st _) eqn:Es; simpl; auto.
  - rewrite iteration_header by assumption. auto.
Qed.

Lemma iteration_consistent st line st' :
  consistent MapToLower st -> iteration MapToLower st line = Done st' -> consistent MapToLower st'.
Proof.
  intros [Hseen Hnd Hlow].
  apply (iteration_cases st line (fun r => r = Done st' -> consistent MapToLower st')).
  - intros _. destruct (categories !! _); [|discriminate].
    intros [= <-]. now constructor.
  - intros _ [= <-]. now constructor.
  - intros _ _ _ _ Hs [= <-]. constructor; simpl.
    + intros m. unfold isSeen. simpl. rewrite lookup_insert.
      rewrite map_app, in_app_iff. simpl.
      destruct (decide (regexp.FindString pipeRE line = m)) as [<-|Hne].
      * simpl. intuition.
      * rewrite <- Hseen. unfold isSeen. intuition.
    + rewrite map_app. simpl. apply List.NoDup_app; [assumption|repeat constructor; auto|].
      intros m Hm [<-|[]]. apply Hseen in Hm. congruence.
    + apply Forall_app. split; [assumption|]. now repeat constructor.
  - intros _ _ [= <-]. now constructor.
Qed.

Lemma iteration_data st line st' :
  iteration MapToLower st line = Done st' -> exists more, data st' = data st ++ more.
Proof.
  apply (iteration_cases st line
           (fun r => r = Done st' -> exists more, data st' = data st ++ more)).
  - intros _. destruct (categories !! _); [|discriminate].
    intros [= <-]. exists []. simpl. now rewrite app_nil_r.
  - intros _ [= <-]. exists []. simpl. now rewrite app_nil_r.
  - intros _ _ _ _ _ [= <-]. simpl. eauto.
  - intros _ _ [= <-]. exists []. now rewrite app_nil_r.
Qed.

(** * The loop *)

Lemma loop_app l1 l2 st :
  loop MapToLower (l1 ++ l2) st =
  match loop MapToLower l1 st with
  | Done st' => loop MapToLower l2 st'
  | Fatal f => Fatal f
  end.
Proof.
  revert st; induction l1 as [|line l1 IH]; intros st; simpl; [reflexivity|].
  destruct (iteration MapToLower st line); [apply IH|reflexivity].
Qed.

Lemma loop_consistent lines st st' :
  consistent MapToLower st -> loop MapToLower lines st = Done st' -> consistent MapToLower st'.
Proof.
  revert st; induction lines as [|line lines IH]; intros st Hst; simpl.
  - now intros [= <-].
  - destruct (iteration MapToLower st line) as [st1|] eqn:E; [|discriminate].
    apply IH. eapply iteration_consistent; eauto.
Qed.

Lemma loop_data lines st st' :
  loop MapToLower lines st = Done st' -> exists more, data st' = data st ++ more.
Proof.
  revert st; induction lines as [|line lines IH]; intros st; simpl.
  - intros [= <-]. exists []. now rewrite app_nil_r.
  - destruct (iteration MapToLower st line) as [st1|] eqn:E; [|discriminate].
    intros (more2 & H2)%IH. apply iteration_data in E as (more1 & H1).
    exists (more1 ++ more2). now rewrite H2, H1, <- app_assoc.
Qed.

Lemma start_consistent : consistent MapToLower start.
Proof.
  constructor; simpl; [|constructor|constructor].
  intros m. unfold isSeen. simpl. rewrite lookup_empty. simpl.
  split; [discriminate|tauto].
Qed.

End Loop.

(** * The scanner *)

Lemma rawLines_oneLine s :
  Forall (fun l => oneLine l = true) (bufio.rawLines s).
Proof.
  induction s as [|c s IH]; [constructor|].
  change (bufio.rawLines (String c s)) with
    (if Ascii.eqb c newline then "" :: bufio.rawLines s
     else match bufio.rawLines s with
          | [] => [String c ""]
          | l :: ls => String c l :: ls
          end).
  destruct (Ascii.eqb c newline) eqn:Ec; [now constructor|].
  destruct (bufio.rawLines s) as [|l ls].
  - repeat constructor. now rewrite oneLine_cons, Ec.
  - inversion_clear IH. constructor; [|assumption].
    rewrite oneLine_cons, Ec. assumption.
Qed.

Lemma dropCR_oneLine l : oneLine l = true -> oneLine (bufio.dropCR l) = true.
Proof.
  induction l as [|c l IH]; [reflexivity|].
  rewrite oneLine_cons. intros [Hc Hl]%andb_true_iff.
  destruct l as [|c' l'].
  - simpl. destruct (Ascii.eqb c carriage_return); [reflexivity|].
    now rewrite oneLine_cons, Hc.
  - change (bufio.dropCR (String c (String c' l'))) with
      (String c (bufio.dropCR (String c' l'))).
    rewrite oneLine_cons, Hc. now apply IH.
Qed.

Lemma tokens_oneLine raw :
  Forall (fun l => oneLine l = true) raw ->
  Forall (fun l => oneLine l = true) (fst (bufio.tokens raw)).
Proof.
  induction 1 as [|l raw Hl Hraw IH]; simpl; [constructor|].
  destruct (_ <=? _)%N; [constructor|].
  destruct (bufio.tokens raw) as [ts e]. simpl in *.
  constructor; [now apply dropCR_oneLine|assumption].
Qed.

(** The lines the scanner delivers hold no line feed. *)
Lemma Scan_oneLine stdin :
  Forall (fun l => oneLine l = true) (fst (bufio.Scan stdin)).
Proof.
  unfold bufio.Scan.
  pose proof (tokens_oneLine _ (rawLines_oneLine (bytes stdin))) as H.
  now destruct (bufio.tokens _).
Qed.

(** * The template *)

Lemma joined_app ps qs : joined (ps ++ qs) = joined ps +:+ joined qs.
Proof.
  induction ps as [|p ps IH]; [reflexivity|].
  simpl. now rewrite IH, app_assoc_s.
Qed.

Lemma writeAll_unlimited ps w :
  template.writeAll ps {| written := w; room := None |} =
  ({| written := w +:+ joined ps; room := None |}, None).
Proof.
  revert w; induction ps as [|p ps IH]; intros w; simpl.
  - now rewrite app_empty_r.
  - unfold Write. simpl. now rewrite IH, app_assoc_s.
Qed.

Lemma joined_range (f : entry -> string) body d :
  (forall e, joined (map (template.evalAction e) body) = f e) ->
  joined (flat_map (fun e => map (template.evalAction e) body) d) =
  joined (map f d).
Proof.
  intros Hf. induction d as [|e d IH]; [reflexivity|].
  simpl. now rewrite joined_app, Hf, IH.
Qed.

(** With an output stream that never fails, the template prints
    [generated]. *)
Lemma Execute_unlimited w d :
  template.Execute tmpl {| written := w; room := None |} d =
  ({| written := w +:+ generated d; room := None |}, None).
Proof.
  unfold template.Execute. rewrite writeAll_unlimited. do 3 f_equal.
  unfold tmpl, generated.
  change (flat_map (template.pieces d) _) with
    ([tmplHead] ++
     flat_map (fun e => map (template.evalAction e) tmplKeywords) d ++
     [tmplMiddle] ++
     flat_map (fun e => map (template.evalAction e) tmplCases) d ++
     [tmplFoot]).
  rewrite !joined_app, (joined_range mapLine), (joined_range caseLine).
  - change (joined [?x]) with (x +:+ ""). now rewrite !app_empty_r.
  - intros e. unfold caseLine. simpl.
    now rewrite !app_assoc_s, app_empty_r.
  - intros e. unfold mapLine. simpl.
    now rewrite !app_assoc_s, app_empty_r.
Qed.

(** * Lower case *)

Lemma raise_lowerByte c :
  isLower c = false -> raiseByte (strings.lowerByte c) = c.
Proof. destruct c as [[] [] [] [] [] [] [] []]; vm_compute; easy. Qed.

Lemma lowerASCII_inj s t :
  all_bytes (fun c => negb (isLower c)) s = true ->
  all_bytes (fun c => negb (isLower c)) t = true ->
  strings.lowerASCII s = strings.lowerASCII t -> s = t.
Proof.
  revert t; induction s as [|a s IH]; intros [|b t]; simpl; try easy.
  intros [Ha Hs]%andb_true_iff [Hb Ht]%andb_true_iff [= Hab Hst].
  apply negb_true_iff in Ha, Hb.
  rewrite <- (raise_lowerByte a Ha), <- (raise_lowerByte b Hb), Hab.
  f_equal. auto.
Qed.

(** * The scanning phase *)

Lemma scanning_Done M stdin d :
  scanning M stdin = Done d ->
  exists st, loop M (fst (bufio.Scan stdin)) start = Done st /\
             snd (bufio.Scan stdin) = None /\ d = data st.
Proof.
  unfold scanning. destruct (bufio.Scan stdin) as [lines err]. simpl.
  destruct (loop M lines start) as [st|]; [|discriminate].
  destruct err; [discriminate|]. intros [= <-]. eauto.
Qed.

Lemma scanning_match_once M stdin d :
  scanning M stdin = Done d -> List.NoDup (map Match d).
Proof.
  intros (st & Hloop & _ & ->)%scanning_Done.
  eapply match_once, loop_consistent; [apply start_consistent|eassumption].
Qed.

Lemma scanning_lower M stdin d :
  scanning M stdin = Done d ->
  Forall (fun e => Lower e = strings.ToLower M (Match e)) d.
Proof.
  intros (st & Hloop & _ & ->)%scanning_Done.
  eapply lower_of_match, loop_consistent; [apply start_consistent|eassumption].
Qed.

Lemma contract_match_once S d :
  sort.SliceContract less S -> List.NoDup (map Match d) ->
  List.NoDup (map Match (S d)).
Proof.
  intros HS Hd. eapply Permutation_NoDup; [|exact Hd].
  apply Permutation_map, HS.
Qed.

Lemma contract_ascending S d :
  sort.SliceContract less S -> List.NoDup (map Match d) -> ascending (S d).
Proof.
  intros HS Hd. apply ordered_ascending; [now apply contract_match_once|].
  apply HS.
Qed.

Lemma Slice_less_contract : sort.SliceContract less (sort.Slice less).
Proof. apply Slice_contract; [exact less_trans|exact less_asym]. Qed.

(** * The claims *)

(** C1. On the six-line example (a [reserved_keyword:] section with SELECT
    and WHERE, an empty line, an [unreserved_keyword:] section with NAME) the
    scanning phase records select/SELECT/R, where/WHERE/R and name/NAME/U, the
    sort orders them NAME, SELECT, WHERE, the generated file is
    [exampleOutput], and its lookup function returns SELECT, WHERE and NAME
    for "select", "where" and "name", and IDENT for every other string, such
    as "foobar". *)
Theorem example_end_to_end (MapToLower : string -> string) :
  scanning MapToLower exampleInput = Done [entrySELECT; entryWHERE; entryNAME]
  /\ sort.Slice less [entrySELECT; entryWHERE; entryNAME]
     = [entryNAME; entrySELECT; entryWHERE]
  /\ ascending [entryNAME; entrySELECT; entryWHERE]
  /\ main MapToLower exampleInput emptyStdout
     = ({| written := exampleOutput; room := None |}, None)
  /\ GetKeywordID [entryNAME; entrySELECT; entryWHERE] "select" = "SELECT"
  /\ GetKeywordID [entryNAME; entrySELECT; entryWHERE] "where" = "WHERE"
  /\ GetKeywordID [entryNAME; entrySELECT; entryWHERE] "name" = "NAME"
  /\ GetKeywordID [entryNAME; entrySELECT; entryWHERE] "foobar" = "IDENT"
  /\ forall k,
       GetKeywordID [entryNAME; entrySELECT; entryWHERE] k = "IDENT"
       \/ k = "select" \/ k = "where" \/ k = "name".
Proof.
  assert (Hscan : scanning MapToLower exampleInput
                  = Done [entrySELECT; entryWHERE; entryNAME])
    by (vm_compute; reflexivity).
  repeat split; try reflexivity; try assumption.
  - repeat constructor.
  - intros k. simpl.
    destruct (String.eqb_spec k "name"); [auto|].
    destruct (String.eqb_spec k "select"); [auto|].
    destruct (String.eqb_spec k "where"); auto.
Qed.

(** C2. For every input that passes the scanning phase, the entry list handed
    to the template is in ascending byte-wise order of [Match], whatever the
    sort that fulfils the contract of [sort.Slice]; the keys of the generated
    mapping, and the cases of the lookup function, are printed in that
    order. *)
Theorem generator_input_ascending
    (MapToLower : string -> string) (Slice : list entry -> list entry)
    (stdin : Stdin) (d : list entry) :
  sort.SliceContract less Slice ->
  scanning MapToLower stdin = Done d ->
  ascending (Slice d)
  /\ ascending (sort.Slice less d)
  /\ forall w,
       main_with MapToLower Slice stdin {| written := w; room := None |}
       = ({| written := w +:+ tmplHead +:+ joined (map mapLine (Slice d))
                          +:+ tmplMiddle +:+ joined (map caseLine (Slice d))
                          +:+ tmplFoot;
             room := None |}, None).
Proof.
  intros HS Hscan. pose proof (scanning_match_once _ _ _ Hscan) as Hnd.
  split; [now apply contract_ascending|].
  split; [apply contract_ascending; [apply Slice_less_contract|assumption]|].
  intros w. unfold main_with. rewrite Hscan, Execute_unlimited. reflexivity.
Qed.

Lemma generator_input_ascending_witness :
  sort.SliceContract less (sort.Slice less)
  /\ scanning asciiOnly exampleInput
     = Done [entrySELECT; entryWHERE; entryNAME]
  /\ ascending (sort.Slice less [entrySELECT; entryWHERE; entryNAME]).
Proof.
  assert (H1 : sort.SliceContract less (sort.Slice less))
    by exact Slice_less_contract.
  assert (H2 : scanning asciiOnly exampleInput
               = Done [entrySELECT; entryWHERE; entryNAME])
    by (vm_compute; reflexivity).
  split; [exact H1|]. split; [exact H2|].
  exact (proj1 (generator_input_ascending asciiOnly (sort.Slice less)
                  exampleInput _ H1 H2)).
Defined.

(** C3. For every input, no [Match] occurs twice in the final entry list.  An
    entry recorded after some lines is still in the final list, with its
    category, whatever lines follow, so the first occurrence decides the
    category; and a later line with a [Match] already recorded leaves the
    variables of the loop as they are, without error. *)
Theorem match_recorded_once
    (MapToLower : string -> string) (Slice : list entry -> list entry)
    (stdin : Stdin) (d : list entry) :
  sort.SliceContract less Slice ->
  scanning MapToLower stdin = Done d ->
  List.NoDup (map Match (Slice d))
  /\ (forall before after st e,
        fst (bufio.Scan stdin) = before ++ after ->
        loop MapToLower before start = Done st ->
        In e (data st) ->
        In e (Slice d)
        /\ forall e', In e' (Slice d) -> Match e' = Match e -> e' = e)
  /\ (forall before st line,
        loop MapToLower before start = Done st ->
        keyword st = true ->
        regexp.FindString keywordRE line = "" -> line <> "" ->
        In (regexp.FindString pipeRE line) (map Match (data st)) ->
        iteration MapToLower st line = Done st).
Proof.
  intros HS Hscan.
  pose proof (contract_match_once _ _ HS (scanning_match_once _ _ _ Hscan))
    as Hnd.
  split; [assumption|]. split.
  - intros before after st e Hlines Hbefore He.
    apply scanning_Done in Hscan as (st' & Hloop & _ & ->).
    rewrite Hlines, loop_app, Hbefore in Hloop.
    apply loop_data in Hloop as (more & Hmore).
    assert (In e (Slice (data st'))) as Hin.
    { eapply Permutation_in; [apply HS|].
      rewrite Hmore. apply in_app_iff. now left. }
    split; [assumption|]. intros e' He' Hm.
    clear - Hnd Hin He' Hm. revert Hnd Hin He'.
    induction (Slice (data st')) as [|x l IH]; simpl; [easy|].
    intros Hnd. inversion_clear Hnd as [|? ? Hx Hl].
    intros [->|Hin] [->|He']; auto.
    + elim Hx. rewrite <- Hm. now apply in_map.
    + elim Hx. rewrite Hm. now apply in_map.
  - intros before st line Hbefore Hk Hh Hl Hin.
    rewrite iteration_keyword by assumption. cbv zeta.
    assert (consistent MapToLower st) as Hc
      by (eapply loop_consistent; [apply start_consistent|eassumption]).
    apply (seen_data _ _ Hc) in Hin. rewrite Hin.
    now rewrite andb_false_r.
Qed.

Lemma match_recorded_once_witness :
  sort.SliceContract less (sort.Slice less)
  /\ scanning asciiOnly exampleInput
     = Done [entrySELECT; entryWHERE; entryNAME]
  /\ List.NoDup
       (map Match (sort.Slice less [entrySELECT; entryWHERE; entryNAME])).
Proof.
  assert (H1 : sort.SliceContract less (sort.Slice less))
    by exact Slice_less_contract.
  assert (H2 : scanning asciiOnly exampleInput
               = Done [entrySELECT; entryWHERE; entryNAME])
    by (vm_compute; reflexivity).
  split; [exact H1|]. split; [exact H2|].
  exact (proj1 (match_recorded_once asciiOnly (sort.Slice less)
                  exampleInput _ H1 H2)).
Defined.

(** A token of two sections keeps the category of the first one. *)
Lemma duplicate_across_sections :
  scanning asciiOnly twoSectionsInput
  = Done [ {| Lower := "name"; Match := "NAME"; Category := "R" |};
           {| Lower := "select"; Match := "SELECT"; Category := "U" |} ].
Proof. vm_compute. reflexivity. Qed.

(** C4, as stated, fails: two tokens that differ only by the case of their
    letters are two entries, since [seen] is keyed by [Match], and both have
    the same [Lower]. *)
Lemma lower_key_twice :
  scanning asciiOnly caseClashInput
  = Done [ {| Lower := "select"; Match := "SELECT"; Category := "R" |};
           {| Lower := "select"; Match := "Select"; Category := "R" |} ]
  /\ map Lower
       (sort.Slice less
          [ {| Lower := "select"; Match := "SELECT"; Category := "R" |};
            {| Lower := "select"; Match := "Select"; Category := "R" |} ])
     = ["select"; "select"]
  /\ ~ List.NoDup ["select"; "select"].
Proof.
  split; [vm_compute; reflexivity|]. split; [reflexivity|].
  intros H. inversion_clear H as [|? ? Hin _]. apply Hin. now left.
Qed.

(** C4, amended.  Every [Match] of the final entry list is unique; the
    [Lower] keys are unique as well when every recorded [Match] is made of
    ASCII bytes and holds no lower-case letter. *)
Theorem lower_keys_unique
    (MapToLower : string -> string) (Slice : list entry -> list entry)
    (stdin : Stdin) (d : list entry) :
  sort.SliceContract less Slice ->
  scanning MapToLower stdin = Done d ->
  Forall (fun e => plainToken (Match e) = true) d ->
  List.NoDup (map Match (Slice d)) /\ List.NoDup (map Lower (Slice d)).
Proof.
  intros HS Hscan Hplain.
  pose proof (scanning_match_once _ _ _ Hscan) as Hnd.
  pose proof (scanning_lower _ _ _ Hscan) as Hlow.
  split; [now apply contract_match_once|].
  eapply Permutation_NoDup; [apply Permutation_map, HS|].
  clear Hscan HS. induction d as [|e d IH]; [constructor|].
  inversion_clear Hnd as [|? ? He Hd]. inversion_clear Hlow as [|? ? Le Ld].
  inversion_clear Hplain as [|? ? Pe Pd].
  simpl. constructor; [|auto].
  intros Hin. apply He. apply in_map_iff in Hin as (e' & Heq & He').
  apply in_map_iff. exists e'. split; [|assumption].
  rewrite List.Forall_forall in Ld, Pd.
  rewrite Le, (Ld e' He') in Heq. specialize (Pd e' He').
  unfold plainToken in Pe, Pd. unfold strings.ToLower in Heq.
  assert (forall m, all_bytes (fun c => isASCIIByte c && negb (isLower c)) m
                    = true ->
            all_bytes isASCIIByte m = true
            /\ all_bytes (fun c => negb (isLower c)) m = true) as Hboth.
  { induction m as [|c m IHm]; simpl; [easy|].
    intros [[H1 H2]%andb_true_iff H3]%andb_true_iff.
    destruct (IHm H3) as [-> ->]. now rewrite H1, H2. }
  destruct (Hboth _ Pe) as [Ae Ne]. destruct (Hboth _ Pd) as [Ae' Ne'].
  rewrite Ae, Ae' in Heq. now apply lowerASCII_inj.
Qed.

Lemma lower_keys_unique_witness :
  sort.SliceContract less (sort.Slice less)
  /\ scanning asciiOnly exampleInput
     = Done [entrySELECT; entryWHERE; entryNAME]
  /\ Forall (fun e => plainToken (Match e) = true)
       [entrySELECT; entryWHERE; entryNAME]
  /\ List.NoDup
       (map Lower (sort.Slice less [entrySELECT; entryWHERE; entryNAME])).
Proof.
  assert (H1 : sort.SliceContract less (sort.Slice less))
    by exact Slice_less_contract.
  assert (H2 : scanning asciiOnly exampleInput
               = Done [entrySELECT; entryWHERE; entryNAME])
    by (vm_compute; reflexivity).
  assert (H3 : Forall (fun e => plainToken (Match e) = true)
                 [entrySELECT; entryWHERE; entryNAME])
    by (repeat constructor).
  split; [exact H1|]. split; [exact H2|]. split; [exact H3|].
  exact (proj2 (lower_keys_unique asciiOnly (sort.Slice less)
                  exampleInput _ H1 H2 H3)).
Defined.

(** * Header lines *)

Lemma oneLine_app s t : oneLine (s +:+ t) = oneLine s && oneLine t.
Proof. apply all_bytes_app. Qed.

Lemma keywordRE_text line :
  oneLine line = true ->
  regexp.FindString keywordRE line <> "" ->
  exists pre post,
    line = pre +:+ "_keyword:" +:+ post
    /\ regexp.FindString keywordRE line = pre +:+ "_keyword:"
    /\ forall pre' post', line = pre' +:+ "_keyword:" +:+ post' ->
         String.length pre' <= String.length pre.
Proof.
  intros Hline. rewrite FindString_keywordRE.
  destruct (regexp.matchAt _ line) as [m|] eqn:E; simpl; [intros _|easy].
  apply star_lits_Some in E as (pre & post & Hs & _ & -> & Hmax).
  exists pre, post. repeat split; try assumption.
  intros pre' post' H. apply (Hmax pre' post' H).
  rewrite H, oneLine_app in Hline. now apply andb_true_iff in Hline.
Qed.

Lemma keywordRE_match line :
  oneLine line = true ->
  regexp.FindString keywordRE line <> "" <->
  exists pre post, line = pre +:+ "_keyword:" +:+ post.
Proof.
  intros Hline. split.
  - intros (pre & post & H & _)%keywordRE_text; eauto.
  - intros (pre & post & H). rewrite FindString_keywordRE.
    destruct (regexp.matchAt _ line) as [m|] eqn:E; simpl.
    + apply star_lits_Some in E as (pre' & _ & _ & _ & -> & _).
      now apply app_not_empty.
    + exfalso. apply (star_lits_None _ _ E pre post H).
      rewrite H, oneLine_app in Hline. now apply andb_true_iff in Hline.
Qed.

(** [.*] is greedy: the match ends with the last [_keyword:] of the line;
    and the text looked up is the whole match, leading white space
    included. *)
Lemma keywordRE_examples :
  regexp.FindString keywordRE "a_keyword: b_keyword: c"
  = "a_keyword: b_keyword:"
  /\ regexp.FindString keywordRE "keyword:" = ""
  /\ iteration asciiOnly start "  reserved_keyword:"
     = Fatal (UnknownKeywordType "  reserved_keyword:").
Proof. repeat split; vm_compute; reflexivity. Qed.

Lemma loop_fatal M before line after st f :
  loop M before start = Done st ->
  iteration M st line = Fatal f ->
  loop M (before ++ line :: after) start = Fatal f.
Proof.
  intros Hb Hi. rewrite loop_app, Hb. simpl. now rewrite Hi.
Qed.

(** C5, as stated, fails: a line that goes on after [_keyword:] does not end
    in [_keyword:], and it is a header all the same; the text looked up in
    the table stops at [_keyword:]. *)
Lemma header_with_trailing_text :
  endsWith "_keyword:" "reserved_keyword: SELECT" = false
  /\ regexp.FindString keywordRE "reserved_keyword: SELECT"
     = "reserved_keyword:"
  /\ iteration asciiOnly start "reserved_keyword: SELECT"
     = Done {| keyword := true; category := "R"; seen := ∅; data := [] |}.
Proof. repeat split; vm_compute; reflexivity. Qed.

(** C5, amended.  A line matches the header pattern exactly when it contains
    [_keyword:]; the matched header text is the line up to and including its
    last [_keyword:].  The table has the six known headers; a matching line
    whose header text is in the table sets the inside-section flag and the
    category of the table, and one whose header text is not in the table
    ends the run at once with the fatal error that names the header: nothing
    is written. *)
Theorem header_line
    (MapToLower : string -> string) (st : locals) (line : string) :
  oneLine line = true ->
  (regexp.FindString keywordRE line <> "" <->
   exists pre post, line = pre +:+ "_keyword:" +:+ post)
  /\ (regexp.FindString keywordRE line <> "" ->
      exists pre post,
        line = pre +:+ "_keyword:" +:+ post
        /\ regexp.FindString keywordRE line = pre +:+ "_keyword:"
        /\ forall pre' post', line = pre' +:+ "_keyword:" +:+ post' ->
             String.length pre' <= String.length pre)
  /\ (forall h c,
        categories !! h = Some c <->
        In (h, c)
          [ ("col_name_keyword:", "C"); ("unreserved_keyword:", "U");
            ("type_func_name_keyword:", "T");
            ("cockroachdb_extra_type_func_name_keyword:", "T");
            ("reserved_keyword:", "R");
            ("cockroachdb_extra_reserved_keyword:", "R") ])
  /\ (forall c,
        categories !! regexp.FindString keywordRE line = Some c ->
        iteration MapToLower st line
        = Done {| keyword := true; category := c;
                  seen := seen st; data := data st |})
  /\ (regexp.FindString keywordRE line <> "" ->
      categories !! regexp.FindString keywordRE line = None ->
      iteration MapToLower st line
      = Fatal (UnknownKeywordType (regexp.FindString keywordRE line))
      /\ message (UnknownKeywordType (regexp.FindString keywordRE line))
         = "unknown keyword type:" +:+ regexp.FindString keywordRE line
      /\ forall Slice stdin stdout before after,
           fst (bufio.Scan stdin) = before ++ line :: after ->
           loop MapToLower before start = Done st ->
           main_with MapToLower Slice stdin stdout
           = (stdout,
              Some (UnknownKeywordType (regexp.FindString keywordRE line)))).
Proof.
  intros Hline.
  split; [now apply keywordRE_match|].
  split; [now apply keywordRE_text|].
  split.
  { intros h c. split; [apply categories_lookup|].
    simpl. intros H.
    repeat (destruct H as [[= <- <-]|H]; [reflexivity|]). destruct H. }
  split.
  - intros c Hc. rewrite iteration_header; [now rewrite Hc|].
    intros Hh. rewrite Hh in Hc. discriminate.
  - intros Hh Hnone.
    assert (iteration MapToLower st line
            = Fatal (UnknownKeywordType (regexp.FindString keywordRE line)))
      as Hfatal by (rewrite iteration_header by assumption; now rewrite Hnone).
    split; [assumption|]. split; [reflexivity|].
    intros Slice stdin stdout before after Hlines Hbefore.
    unfold main_with, scanning.
    destruct (bufio.Scan stdin) as [lines err]. simpl in Hlines. subst lines.
    now rewrite (loop_fatal _ _ _ _ _ _ Hbefore Hfatal).
Qed.

Lemma header_line_witness :
  oneLine "foo_keyword:" = true
  /\ iteration asciiOnly start "foo_keyword:"
     = Fatal (UnknownKeywordType "foo_keyword:").
Proof.
  split; [reflexivity|].
  refine (proj1 (proj2 (proj2 (proj2 (proj2
    (header_line asciiOnly start "foo_keyword:" eq_refl)))) _ _)).
  - discriminate.
  - vm_compute. reflexivity.
Defined.

(** * Keyword lines *)

Lemma FindString_pipeRE_oneLine line :
  oneLine line = true -> regexp.FindString pipeRE line = fromFirstUpper line.
Proof.
  intros H. rewrite FindString_pipeRE.
  now apply upToNewline_oneLine, fromFirstUpper_oneLine.
Qed.

Lemma upToNewline_head c rest :
  isUpper c = true ->
  upToNewline (String c rest) = String c (upToNewline rest).
Proof.
  intros Hc. simpl.
  destruct (Ascii.eqb_spec c newline) as [->|_]; [discriminate|reflexivity].
Qed.

Lemma pipeRE_match line :
  regexp.FindString pipeRE line <> "" <-> any_byte isUpper line = true.
Proof.
  rewrite FindString_pipeRE. split.
  - intros H. destruct (any_byte isUpper line) eqn:E; [reflexivity|].
    now rewrite fromFirstUpper_none in H.
  - intros (c & rest & -> & Hc)%fromFirstUpper_head.
    now rewrite upToNewline_head.
Qed.

Lemma isSpace_not_upper line :
  all_bytes isSpace line = true -> any_byte isUpper line = false.
Proof.
  induction line as [|c s IH]; [reflexivity|].
  simpl. intros [Hc Hs]%andb_true_iff. rewrite (IH Hs), orb_false_r.
  revert Hc. destruct c as [[] [] [] [] [] [] [] []]; vm_compute; easy.
Qed.

Lemma isSpace_not_header line :
  all_bytes isSpace line = true -> regexp.FindString keywordRE line = "".
Proof.
  intros H. rewrite FindString_keywordRE.
  destruct (regexp.matchAt _ line) as [m|] eqn:E; [exfalso|reflexivity].
  apply star_lits_Some in E as (pre & post & -> & _).
  rewrite !all_bytes_app in H.
  apply andb_true_iff in H as [_ [H _]%andb_true_iff]. discriminate.
Qed.

(** C6, as stated, fails: the text recorded runs to the end of the line, it
    is not the word that begins at the first upper-case letter. *)
Lemma match_runs_to_end_of_line :
  iteration asciiOnly (inSection "R" []) "| SELECT x"
  = Done {| keyword := true; category := "R";
            seen := {[ "SELECT x" := true ]};
            data := [ {| Lower := "select x"; Match := "SELECT x";
                         Category := "R" |} ] |}
  /\ firstUpperWord "| SELECT x" = "SELECT"
  /\ "SELECT x" <> firstUpperWord "| SELECT x".
Proof. repeat split; try (vm_compute; reflexivity). discriminate. Qed.

(** C6, amended.  For a non-empty, non-header line read while the
    inside-section flag is true, the text [pipeRE] finds is the rest of the
    line from its first ASCII upper-case letter to its end.  When the line
    has such a letter and the text was not seen before, the entry recorded
    has this text as [Match], its lower-case form as [Lower] and the category
    of the section as [Category]; a line without such a letter, or whose
    text was seen, leaves the variables as they are. *)
Theorem keyword_line
    (MapToLower : string -> string) (st : locals) (line : string) :
  keyword st = true ->
  line <> "" ->
  regexp.FindString keywordRE line = "" ->
  oneLine line = true ->
  (exists pre,
     line = pre +:+ regexp.FindString pipeRE line
     /\ any_byte isUpper pre = false)
  /\ (any_byte isUpper line = true ->
      exists c rest,
        regexp.FindString pipeRE line = String c rest /\ isUpper c = true)
  /\ (any_byte isUpper line = true ->
      isSeen st (regexp.FindString pipeRE line) = false ->
      iteration MapToLower st line
      = Done {| keyword := true; category := category st;
                seen := <[regexp.FindString pipeRE line := true]> (seen st);
                data := data st ++
                  [ {| Lower := strings.ToLower MapToLower
                                  (regexp.FindString pipeRE line);
                       Match := regexp.FindString pipeRE line;
                       Category := category st |} ] |})
  /\ (any_byte isUpper line = false ->
      regexp.FindString pipeRE line = ""
      /\ iteration MapToLower st line = Done st)
  /\ (isSeen st (regexp.FindString pipeRE line) = true ->
      iteration MapToLower st line = Done st).
Proof.
  intros Hk Hl Hh Hline.
  rewrite (iteration_keyword _ _ _ Hh Hl). cbv zeta. rewrite Hk.
  rewrite (FindString_pipeRE_oneLine _ Hline).
  split; [apply fromFirstUpper_split|].
  split; [apply fromFirstUpper_head|].
  split; [|split].
  - intros (c & rest & E & _)%fromFirstUpper_head Hs.
    rewrite Hs, E. reflexivity.
  - intros E. rewrite (fromFirstUpper_none _ E). split; reflexivity.
  - intros ->. now rewrite andb_false_r.
Qed.

Lemma keyword_line_witness :
  iteration asciiOnly (inSection "U" [entrySELECT]) "| NAME"
  = Done {| keyword := true; category := "U";
            seen := <["NAME" := true]> (seen (inSection "U" [entrySELECT]));
            data := [entrySELECT; entryNAME] |}.
Proof.
  assert (Hk : keyword (inSection "U" [entrySELECT]) = true) by reflexivity.
  assert (Hl : "| NAME" <> "") by discriminate.
  assert (Hh : regexp.FindString keywordRE "| NAME" = "") by reflexivity.
  assert (Ho : oneLine "| NAME" = true) by reflexivity.
  assert (Hu : any_byte isUpper "| NAME" = true) by reflexivity.
  assert (Hs : isSeen (inSection "U" [entrySELECT])
                 (regexp.FindString pipeRE "| NAME") = false)
    by (vm_compute; reflexivity).
  exact (proj1 (proj2 (proj2
    (keyword_line asciiOnly (inSection "U" [entrySELECT]) "| NAME"
       Hk Hl Hh Ho))) Hu Hs).
Defined.

(** * Determinism *)

Lemma SliceReversed_contract : sort.SliceContract less SliceReversed.
Proof.
  intros l. unfold SliceReversed. split.
  - rewrite (Permutation_rev l) at 1. apply Slice_perm.
  - apply Slice_ordered; [exact less_trans|exact less_asym].
Qed.

(** C7. The run is determined by its input: the scanning phase is a function
    of the bytes of the input stream, and although [sort.Slice] is free in
    the order it gives to equal keys, two sorts that fulfil its contract hand
    the same list to the template, so two runs on the same input write the
    same bytes and end the same way. *)
Theorem output_determined
    (MapToLower : string -> string) (Slice1 Slice2 : list entry -> list entry)
    (stdin : Stdin) (stdout : Stdout) :
  sort.SliceContract less Slice1 ->
  sort.SliceContract less Slice2 ->
  main_with MapToLower Slice1 stdin stdout
  = main_with MapToLower Slice2 stdin stdout.
Proof.
  intros H1 H2. unfold main_with.
  destruct (scanning MapToLower stdin) as [d|f] eqn:Hscan; [|reflexivity].
  apply scanning_match_once in Hscan.
  assert (Slice1 d = Slice2 d) as ->; [|reflexivity].
  apply ascending_unique; try now apply contract_ascending.
  transitivity d; [symmetry; apply H1|apply H2].
Qed.

Lemma output_determined_witness :
  main_with asciiOnly (sort.Slice less) exampleInput emptyStdout
  = main_with asciiOnly SliceReversed exampleInput emptyStdout.
Proof.
  exact (output_determined asciiOnly (sort.Slice less) SliceReversed
           exampleInput emptyStdout
           Slice_less_contract SliceReversed_contract).
Defined.

(** * Fatal errors *)

Lemma iteration_Fatal M st line f :
  iteration M st line = Fatal f ->
  f = UnknownKeywordType (regexp.FindString keywordRE line).
Proof.
  apply (iteration_cases M st line
           (fun r => r = Fatal f -> f = UnknownKeywordType _)); try easy.
  intros _. destruct (categories !! _); [easy|]. now intros [= <-].
Qed.

Lemma loop_Fatal M lines st f :
  loop M lines st = Fatal f -> exists h, f = UnknownKeywordType h.
Proof.
  revert st; induction lines as [|line lines IH]; intros st; simpl; [easy|].
  destruct (iteration M st line) as [st'|f'] eqn:E; [apply IH|].
  intros [= <-]. apply iteration_Fatal in E. eauto.
Qed.

Lemma scanning_Fatal M stdin f :
  scanning M stdin = Fatal f ->
  (exists h, f = UnknownKeywordType h)
  \/ (exists e, f = ReadingStandardInput e).
Proof.
  unfold scanning. destruct (bufio.Scan stdin) as [lines err].
  destruct (loop M lines start) as [st|f'] eqn:E.
  - destruct err; [|easy]. intros [= <-]. eauto.
  - intros [= <-]. left. eapply loop_Fatal; eauto.
Qed.

(** A failure of the output stream while the template is printed leaves
    the bytes written before it. *)
Lemma render_error_partial_output :
  main asciiOnly exampleInput tenBytes
  = ({| written := "// Code ge";
        room := Some (0%N, "write /dev/stdout: no space left on device") |},
     Some (ExecuteFailed "write /dev/stdout: no space left on device")).
Proof. vm_compute. reflexivity. Qed.

(** A read error of the input stream ends the run after the loop, before
    the sort and the template. *)
Lemma read_error_writes_nothing :
  main asciiOnly brokenInput tenBytes
  = (tenBytes,
     Some (ReadingStandardInput "read /dev/stdin: input/output error")).
Proof. vm_compute. reflexivity. Qed.

(** C8. A fatal error of the scanning phase (an unknown header, a read
    failure of the input stream) ends the run with the output stream as it
    was: nothing has been written.  Bytes are written only after the whole
    scanning phase has ended without error, and a run that ends with a fatal
    error after writing ends with the error of the template. *)
Theorem scanning_errors_write_nothing
    (MapToLower : string -> string) (Slice : list entry -> list entry)
    (stdin : Stdin) (stdout out : Stdout) (r : option fatal) :
  main_with MapToLower Slice stdin stdout = (out, r) ->
  (forall f, scanning MapToLower stdin = Fatal f ->
     out = stdout /\ r = Some f
     /\ ((exists h, f = UnknownKeywordType h)
         \/ (exists e, f = ReadingStandardInput e)))
  /\ (forall h, r = Some (UnknownKeywordType h) -> out = stdout)
  /\ (forall e, r = Some (ReadingStandardInput e) -> out = stdout)
  /\ (out <> stdout ->
      exists d, scanning MapToLower stdin = Done d
                /\ fst (template.Execute tmpl stdout (Slice d)) = out)
  /\ (out <> stdout -> r <> None -> exists e, r = Some (ExecuteFailed e)).
Proof.
  unfold main_with. intros Hmain.
  destruct (scanning MapToLower stdin) as [d|f] eqn:Hscan.
  - destruct (template.Execute tmpl stdout (Slice d)) as [out' [e|]] eqn:Hex;
      injection Hmain as <- <-.
    + split; [easy|]. split; [easy|]. split; [easy|]. split.
      * intros _. exists d. now rewrite Hex.
      * intros _ _. now exists e.
    + split; [easy|]. split; [easy|]. split; [easy|]. split.
      * intros _. exists d. now rewrite Hex.
      * intros _ Hr. now elim Hr.
  - injection Hmain as <- <-. apply scanning_Fatal in Hscan as Hkind.
    split; [now intros f' [= <-]|].
    split; [easy|]. split; [easy|]. split; intros Hne; now elim Hne.
Qed.

Lemma scanning_errors_write_nothing_witness :
  main_with asciiOnly (sort.Slice less) unknownHeaderInput tenBytes
  = (tenBytes, Some (UnknownKeywordType "foo_keyword:"))
  /\ scanning asciiOnly unknownHeaderInput
     = Fatal (UnknownKeywordType "foo_keyword:")
  /\ tenBytes = tenBytes.
Proof.
  assert (H1 : main_with asciiOnly (sort.Slice less) unknownHeaderInput
                 tenBytes
               = (tenBytes, Some (UnknownKeywordType "foo_keyword:")))
    by (vm_compute; reflexivity).
  assert (H2 : scanning asciiOnly unknownHeaderInput
               = Fatal (UnknownKeywordType "foo_keyword:"))
    by (vm_compute; reflexivity).
  split; [exact H1|]. split; [exact H2|].
  exact (proj1 (proj1 (scanning_errors_write_nothing asciiOnly
                         (sort.Slice less) unknownHeaderInput tenBytes _ _ H1)
                  _ H2)).
Defined.

(** * Lines that record nothing *)

(** C9. Inside a section, the inside-section flag is cleared by the empty
    line and by no other line.  A line made of white space only is not
    empty: it leaves the variables of the loop as they are, so the loop goes
    on over the following lines as if the line were absent, and an
    upper-case-led line that follows is still recorded. *)
Theorem only_empty_line_ends_section
    (MapToLower : string -> string) (st : locals) (line : string) :
  keyword st = true ->
  (forall st', iteration MapToLower st line = Done st' ->
     (keyword st' = false <-> line = ""))
  /\ (line <> "" -> all_bytes isSpace line = true ->
      iteration MapToLower st line = Done st
      /\ forall rest,
           loop MapToLower (line :: rest) st = loop MapToLower rest st).
Proof.
  intros Hk. split.
  - apply (iteration_cases MapToLower st line
             (fun r => forall st', r = Done st' ->
                         (keyword st' = false <-> line = ""))).
    + intros Hh st'. destruct (categories !! _); [|easy].
      intros [= <-]. simpl. split; [easy|].
      intros ->. now elim Hh.
    + intros -> st' [= <-]. simpl. easy.
    + intros _ Hl _ _ _ st' [= <-]. simpl. easy.
    + intros _ Hl st' [= <-]. rewrite Hk. easy.
  - intros Hl Hsp.
    assert (iteration MapToLower st line = Done st) as Hi.
    { rewrite iteration_keyword; [|now apply isSpace_not_header|assumption].
      cbv zeta. rewrite FindString_pipeRE.
      rewrite (fromFirstUpper_none _ (isSpace_not_upper _ Hsp)). simpl.
      now rewrite andb_false_r. }
    split; [assumption|]. intros rest. simpl. now rewrite Hi.
Qed.

Lemma only_empty_line_ends_section_witness :
  keyword (inSection "R" [entrySELECT]) = true
  /\ iteration asciiOnly (inSection "R" [entrySELECT]) " "
     = Done (inSection "R" [entrySELECT])
  /\ loop asciiOnly [" "; "WHERE"] (inSection "R" [entrySELECT])
     = loop asciiOnly ["WHERE"] (inSection "R" [entrySELECT]).
Proof.
  assert (Hk : keyword (inSection "R" [entrySELECT]) = true) by reflexivity.
  assert (Hl : " " <> "") by discriminate.
  assert (Hs : all_bytes isSpace " " = true) by reflexivity.
  split; [exact Hk|].
  destruct (proj2 (only_empty_line_ends_section asciiOnly
                     (inSection "R" [entrySELECT]) " " Hk) Hl Hs)
    as [Hi Hrest].
  split; [exact Hi|exact (Hrest ["WHERE"])].
Defined.

(** The token after a line of one space is recorded; after an empty line it
    is not. *)
Lemma space_line_keeps_section_open :
  scanning asciiOnly spaceLineInput = Done [entrySELECT; entryWHERE]
  /\ scanning asciiOnly emptyLineInput = Done [entrySELECT].
Proof. split; vm_compute; reflexivity. Qed.

(** C10. The text of a token begins at an ASCII letter [A] to [Z] and
    nowhere else: [pipeRE] matches a line exactly when the line holds such a
    byte.  A non-empty, non-header line without one, such as a token in
    lower case or one that begins with a capital letter outside ASCII,
    leaves the variables of the loop as they are and records no entry. *)
Theorem no_upper_case_no_entry
    (MapToLower : string -> string) (st : locals) (line : string) :
  line <> "" ->
  regexp.FindString keywordRE line = "" ->
  (regexp.FindString pipeRE line <> "" <-> any_byte isUpper line = true)
  /\ (any_byte isUpper line = false ->
      iteration MapToLower st line = Done st).
Proof.
  intros Hl Hh. split; [apply pipeRE_match|].
  intros Hu. rewrite iteration_keyword by assumption. cbv zeta.
  rewrite FindString_pipeRE, (fromFirstUpper_none _ Hu). simpl.
  now rewrite andb_false_r.
Qed.

Lemma no_upper_case_no_entry_witness :
  iteration asciiOnly (inSection "R" [entrySELECT]) "| select"
  = Done (inSection "R" [entrySELECT])
  /\ iteration asciiOnly (inSection "R" [entrySELECT]) accentedLine
     = Done (inSection "R" [entrySELECT]).
Proof.
  split.
  - refine (proj2 (no_upper_case_no_entry asciiOnly
                     (inSection "R" [entrySELECT]) "| select" _ _) _).
    + discriminate.
    + reflexivity.
    + reflexivity.
  - refine (proj2 (no_upper_case_no_entry asciiOnly
                     (inSection "R" [entrySELECT]) accentedLine _ _) _).
    + discriminate.
    + reflexivity.
    + reflexivity.
Defined.

(** * Further properties of the loop *)

Lemma isHeader_false line :
  isHeader line = false <-> regexp.FindString keywordRE line = "".
Proof.
  unfold isHeader. rewrite negb_false_iff. apply String.eqb_eq.
Qed.

Lemma isHeader_true line :
  isHeader line = true <-> regexp.FindString keywordRE line <> "".
Proof.
  unfold isHeader. rewrite negb_true_iff. apply String.eqb_neq.
Qed.

Lemma isKeywordLine_true line :
  isKeywordLine line = true <->
  regexp.FindString keywordRE line = "" /\ line <> "".
Proof.
  unfold isKeywordLine.
  rewrite andb_true_iff, !negb_true_iff, isHeader_false.
  now rewrite String.eqb_neq.
Qed.

Lemma locals_eta st :
  {| keyword := keyword st; category := category st;
     seen := seen st; data := data st |} = st.
Proof. now destruct st. Qed.

(** Outside a section, a line that is not a header changes nothing. *)
Lemma iteration_outside M st line :
  keyword st = false -> isHeader line = false ->
  iteration M st line = Done st.
Proof.
  intros Hk Hh%isHeader_false.
  destruct (string_dec line "") as [->|Hl].
  - rewrite iteration_empty, <- Hk. now rewrite locals_eta.
  - rewrite iteration_keyword by assumption. cbv zeta. now rewrite Hk.
Qed.

Lemma loop_outside M lines st :
  keyword st = false -> Forall (fun l => isHeader l = false) lines ->
  loop M lines st = Done st.
Proof.
  intros Hk. induction 1 as [|line lines Hl _ IH]; simpl; [reflexivity|].
  now rewrite iteration_outside.
Qed.

Lemma contract_nil (S : list entry -> list entry) :
  sort.SliceContract less S -> S [] = [].
Proof.
  intros HS. destruct (HS []) as [Hp _]. now apply Permutation_nil in Hp.
Qed.

(** X1. Lines are recorded only inside a section.  The lines before the
    first header are ignored; an input without any header line, read
    without error, gives no entry, and the file generated is the template
    without any line of the table or of the switch. *)
Theorem no_header_no_entry
    (MapToLower : string -> string) (Slice : list entry -> list entry)
    (stdin : Stdin) (pre rest : list string) :
  sort.SliceContract less Slice ->
  fst (bufio.Scan stdin) = pre ++ rest ->
  Forall (fun l => isHeader l = false) pre ->
  loop MapToLower (pre ++ rest) start = loop MapToLower rest start
  /\ (rest = [] -> snd (bufio.Scan stdin) = None ->
      scanning MapToLower stdin = Done []
      /\ forall w,
           main_with MapToLower Slice stdin {| written := w; room := None |}
           = ({| written := w +:+ tmplHead +:+ tmplMiddle +:+ tmplFoot;
                 room := None |}, None)).
Proof.
  intros HS Hlines Hpre.
  assert (loop MapToLower (pre ++ rest) start = loop MapToLower rest start)
    as Hloop by (rewrite loop_app, loop_outside; auto).
  split; [assumption|]. intros -> Herr.
  assert (scanning MapToLower stdin = Done []) as Hscan.
  { unfold scanning. destruct (bufio.Scan stdin) as [lines err].
    simpl in Hlines, Herr. subst lines err. now rewrite Hloop. }
  split; [assumption|]. intros w.
  unfold main_with. rewrite Hscan, (contract_nil _ HS), Execute_unlimited.
  reflexivity.
Qed.

Lemma no_header_no_entry_witness :
  scanning asciiOnly
    {| bytes := unlines ["%token SELECT"; ""; "stmt:"; "  SELECT"];
       failure := None |} = Done [].
Proof.
  refine (proj1 (proj2 (no_header_no_entry asciiOnly (sort.Slice less)
    {| bytes := unlines ["%token SELECT"; ""; "stmt:"; "  SELECT"];
       failure := None |}
    ["%token SELECT"; ""; "stmt:"; "  SELECT"] []
    Slice_less_contract _ _) eq_refl _)).
  - vm_compute. reflexivity.
  - repeat constructor.
  - vm_compute. reflexivity.
Defined.

(** * The shape of the entries *)

Lemma oneLine_upToNewline s : oneLine (upToNewline s) = true.
Proof.
  induction s as [|c s IH]; [reflexivity|].
  change (upToNewline (String c s)) with
    (if Ascii.eqb c newline then "" else String c (upToNewline s)).
  destruct (Ascii.eqb c newline) eqn:Ec; [reflexivity|].
  now rewrite oneLine_cons, Ec.
Qed.

Lemma pipeRE_text_shape line :
  regexp.FindString pipeRE line <> "" ->
  startsUpper (regexp.FindString pipeRE line) = true
  /\ oneLine (regexp.FindString pipeRE line) = true.
Proof.
  intros H. split.
  - apply pipeRE_match in H. rewrite FindString_pipeRE.
    apply fromFirstUpper_head in H as (c & rest & -> & Hc).
    now rewrite upToNewline_head.
  - rewrite FindString_pipeRE. apply oneLine_upToNewline.
Qed.

Lemma categories_codes h c : categories !! h = Some c -> In c codes.
Proof.
  intros H%categories_lookup. simpl in H. unfold codes. simpl.
  repeat (destruct H as [[= _ <-]|H]; [tauto|]). destruct H.
Qed.

Lemma iteration_wellFormed M st line st' :
  Forall (wellFormed M) (data st)
  /\ (keyword st = true -> In (category st) codes) ->
  iteration M st line = Done st' ->
  Forall (wellFormed M) (data st')
  /\ (keyword st' = true -> In (category st') codes).
Proof.
  intros [Hd Hc].
  apply (iteration_cases M st line
           (fun r => r = Done st' ->
              Forall (wellFormed M) (data st')
              /\ (keyword st' = true -> In (category st') codes))).
  - intros _. destruct (categories !! _) as [c|] eqn:E; [|discriminate].
    intros [= <-]. simpl. split; [assumption|].
    intros _. eapply categories_codes; eauto.
  - intros _ [= <-]. simpl. split; [assumption|discriminate].
  - intros _ _ Hk Hm _ [= <-]. simpl. split; [|intros _; exact (Hc Hk)].
    apply Forall_app. split; [assumption|].
    constructor; [|constructor].
    destruct (pipeRE_text_shape _ Hm) as [H1 H2].
    unfold wellFormed. simpl.
    split; [exact (Hc Hk)|]. split; [exact H1|]. split; [exact H2|reflexivity].
  - intros _ _ [= <-]. auto.
Qed.

Lemma loop_wellFormed M lines st st' :
  Forall (wellFormed M) (data st)
  /\ (keyword st = true -> In (category st) codes) ->
  loop M lines st = Done st' ->
  Forall (wellFormed M) (data st')
  /\ (keyword st' = true -> In (category st') codes).
Proof.
  revert st; induction lines as [|line lines IH]; intros st Hst; simpl.
  - now intros [= <-].
  - destruct (iteration M st line) as [st1|] eqn:E; [|discriminate].
    apply IH. eapply iteration_wellFormed; eauto.
Qed.

(** X2. Every entry handed to the template has one of the four category
    codes C, U, T, R, a [Match] that begins with an ASCII upper-case letter
    and holds no line feed, and the lower-case form of its [Match] as
    [Lower]. *)
Theorem entries_well_formed
    (MapToLower : string -> string) (Slice : list entry -> list entry)
    (stdin : Stdin) (d : list entry) :
  sort.SliceContract less Slice ->
  scanning MapToLower stdin = Done d ->
  Forall (wellFormed MapToLower) (Slice d).
Proof.
  intros HS (st & Hloop & _ & ->)%scanning_Done.
  eapply Permutation_Forall; [apply HS|].
  eapply loop_wellFormed; [|eassumption].
  split; [constructor|discriminate].
Qed.

Lemma entries_well_formed_witness :
  Forall (wellFormed asciiOnly)
    (sort.Slice less [entrySELECT; entryWHERE; entryNAME]).
Proof.
  refine (entries_well_formed asciiOnly (sort.Slice less) exampleInput
            [entrySELECT; entryWHERE; entryNAME] Slice_less_contract _).
  vm_compute. reflexivity.
Defined.

(** * Where the entries come from *)

Lemma fromSection_snoc lines line e :
  fromSection lines e -> fromSection (lines ++ [line]) e.
Proof.
  intros (l1 & hdr & l2 & kw & l3 & -> & H).
  exists l1, hdr, l2, kw, (l3 ++ [line]). split; [|assumption].
  rewrite <- app_assoc. simpl. now rewrite <- app_assoc.
Qed.

Lemma sectionOpen_snoc lines line c :
  isKeywordLine line = true ->
  sectionOpen lines c -> sectionOpen (lines ++ [line]) c.
Proof.
  intros Hl (l1 & hdr & l2 & -> & Hc & H2).
  exists l1, hdr, (l2 ++ [line]). split; [|split; [assumption|]].
  - now rewrite <- app_assoc.
  - apply Forall_app. split; [assumption|]. now repeat constructor.
Qed.

Lemma iteration_provenance M lines st line st' :
  Forall (fromSection lines) (data st)
  /\ (keyword st = true -> sectionOpen lines (category st)) ->
  iteration M st line = Done st' ->
  Forall (fromSection (lines ++ [line])) (data st')
  /\ (keyword st' = true -> sectionOpen (lines ++ [line]) (category st')).
Proof.
  intros [Hd Hc].
  assert (Forall (fromSection (lines ++ [line])) (data st)) as Hd'.
  { eapply List.Forall_impl; [|exact Hd]. intros e. apply fromSection_snoc. }
  apply (iteration_cases M st line
           (fun r => r = Done st' ->
              Forall (fromSection (lines ++ [line])) (data st')
              /\ (keyword st' = true ->
                  sectionOpen (lines ++ [line]) (category st')))).
  - intros _. destruct (categories !! _) as [c|] eqn:E; [|discriminate].
    intros [= <-]. simpl. split; [assumption|]. intros _.
    exists lines, line, []. repeat split; [assumption|constructor].
  - intros _ [= <-]. simpl. split; [assumption|discriminate].
  - intros Hh Hl Hk Hm _ [= <-]. simpl.
    assert (isKeywordLine line = true) as Hkw
      by now apply isKeywordLine_true.
    split; [|intros _; apply sectionOpen_snoc; auto].
    apply Forall_app. split; [assumption|]. constructor; [|constructor].
    destruct (Hc Hk) as (l1 & hdr & l2 & -> & Hcat & H2).
    exists l1, hdr, l2, line, []. simpl.
    repeat split; try assumption. now rewrite <- app_assoc.
  - intros Hh Hl [= <-]. split; [assumption|].
    intros Hk. apply sectionOpen_snoc; [|auto].
    now apply isKeywordLine_true.
Qed.

Lemma loop_provenance M rest lines st st' :
  Forall (fromSection lines) (data st)
  /\ (keyword st = true -> sectionOpen lines (category st)) ->
  loop M rest st = Done st' ->
  Forall (fromSection (lines ++ rest)) (data st')
  /\ (keyword st' = true -> sectionOpen (lines ++ rest) (category st')).
Proof.
  revert lines st; induction rest as [|line rest IH]; intros lines st Hst.
  - simpl. intros [= <-]. now rewrite app_nil_r.
  - simpl. destruct (iteration M st line) as [st1|] eqn:E; [|discriminate].
    intros Hloop.
    replace (lines ++ line :: rest) with ((lines ++ [line]) ++ rest)
      by now rewrite <- app_assoc.
    eapply IH; [|exact Hloop]. eapply iteration_provenance; eauto.
Qed.

(** X3. Every entry handed to the template comes from the input: its
    [Match] is the text [pipeRE] finds in a keyword line (not a header, not
    empty) that follows a header line with only keyword lines in between,
    and its [Category] is the code of the table for that header. *)
Theorem entry_provenance
    (MapToLower : string -> string) (Slice : list entry -> list entry)
    (stdin : Stdin) (d : list entry) :
  sort.SliceContract less Slice ->
  scanning MapToLower stdin = Done d ->
  Forall (fromSection (fst (bufio.Scan stdin))) (Slice d).
Proof.
  intros HS (st & Hloop & _ & ->)%scanning_Done.
  eapply Permutation_Forall; [apply HS|].
  apply (loop_provenance MapToLower (fst (bufio.Scan stdin)) [] start st);
    [|assumption].
  split; [constructor|discriminate].
Qed.

Lemma entry_provenance_witness :
  Forall (fromSection (fst (bufio.Scan exampleInput)))
    (sort.Slice less [entrySELECT; entryWHERE; entryNAME]).
Proof.
  refine (entry_provenance asciiOnly (sort.Slice less) exampleInput
            [entrySELECT; entryWHERE; entryNAME] Slice_less_contract _).
  vm_compute. reflexivity.
Defined.

(** * No keyword is lost *)

Lemma iteration_keyword_flag M st line st' :
  isKeywordLine line = true -> iteration M st line = Done st' ->
  keyword st' = keyword st /\ category st' = category st.
Proof.
  intros [Hh Hl]%isKeywordLine_true.
  rewrite iteration_keyword by assumption. cbv zeta.
  destruct (_ && _); intros [= <-]; auto.
Qed.

Lemma iteration_keyword_Done M st line :
  isKeywordLine line = true -> exists st', iteration M st line = Done st'.
Proof.
  intros [Hh Hl]%isKeywordLine_true.
  rewrite iteration_keyword by assumption. cbv zeta.
  destruct (_ && _); eauto.
Qed.

Lemma loop_keyword_flag M lines st st' :
  Forall (fun l => isKeywordLine l = true) lines ->
  loop M lines st = Done st' ->
  keyword st' = keyword st /\ category st' = category st.
Proof.
  intros H; revert st; induction H as [|line lines Hl _ IH]; intros st; simpl.
  - now intros [= <-].
  - destruct (iteration M st line) as [st1|] eqn:E; [|discriminate].
    intros [H1 H2]%IH.
    destruct (iteration_keyword_flag _ _ _ _ Hl E) as [H3 H4].
    split; congruence.
Qed.

Lemma section_state M l1 hdr l2 st :
  loop M (l1 ++ hdr :: l2) start = Done st ->
  isHeader hdr = true ->
  Forall (fun l => isKeywordLine l = true) l2 ->
  keyword st = true
  /\ categories !! regexp.FindString keywordRE hdr = Some (category st).
Proof.
  intros Hloop Hh%isHeader_true H2. rewrite loop_app in Hloop.
  destruct (loop M l1 start) as [st0|]; [|discriminate].
  simpl in Hloop. rewrite iteration_header in Hloop by assumption.
  destruct (categories !! _) as [c|]; [|discriminate].
  apply loop_keyword_flag in Hloop as [-> ->]; auto.
Qed.

Lemma iteration_keyword_seen M st line st' :
  consistent M st -> keyword st = true ->
  isKeywordLine line = true ->
  regexp.FindString pipeRE line <> "" ->
  iteration M st line = Done st' ->
  In (regexp.FindString pipeRE line) (map Match (data st')).
Proof.
  intros Hc Hk [Hh Hl]%isKeywordLine_true Hm.
  rewrite iteration_keyword by assumption. cbv zeta. rewrite Hk.
  apply String.eqb_neq in Hm. rewrite Hm. simpl.
  destruct (isSeen st _) eqn:Es; simpl; intros [= <-].
  - now apply (seen_data _ _ Hc).
  - simpl. rewrite map_app, in_app_iff. right. now left.
Qed.

(** X4. No keyword of a section is lost: in a run whose scanning phase ends
    without error, every keyword line that follows a header (with only
    keyword lines in between) and holds an ASCII upper-case letter has the
    text [pipeRE] finds in it as the [Match] of an entry handed to the
    template. *)
Theorem keyword_line_recorded
    (MapToLower : string -> string) (Slice : list entry -> list entry)
    (stdin : Stdin) (d : list entry) (l1 l2 l3 : list string)
    (hdr kw : string) :
  sort.SliceContract less Slice ->
  scanning MapToLower stdin = Done d ->
  fst (bufio.Scan stdin) = l1 ++ hdr :: l2 ++ kw :: l3 ->
  isHeader hdr = true ->
  Forall (fun l => isKeywordLine l = true) l2 ->
  isKeywordLine kw = true ->
  any_byte isUpper kw = true ->
  exists e, In e (Slice d) /\ Match e = regexp.FindString pipeRE kw.
Proof.
  intros HS (st' & Hloop & _ & ->)%scanning_Done Hlines Hh H2 Hkw Hu.
  rewrite Hlines in Hloop.
  replace (l1 ++ hdr :: l2 ++ kw :: l3)
    with ((l1 ++ hdr :: l2) ++ kw :: l3) in Hloop
    by (rewrite <- app_assoc; reflexivity).
  rewrite loop_app in Hloop.
  destruct (loop MapToLower (l1 ++ hdr :: l2) start) as [st|] eqn:Hbefore;
    [|discriminate].
  simpl in Hloop.
  destruct (iteration MapToLower st kw) as [st1|] eqn:Hi; [|discriminate].
  destruct (section_state _ _ _ _ _ Hbefore Hh H2) as [Hk _].
  assert (consistent MapToLower st) as Hc
    by (eapply loop_consistent; [apply start_consistent|eassumption]).
  apply pipeRE_match in Hu.
  pose proof (iteration_keyword_seen _ _ _ _ Hc Hk Hkw Hu Hi) as Hin.
  apply loop_data in Hloop as (more & Hmore).
  assert (In (regexp.FindString pipeRE kw) (map Match (Slice (data st'))))
    as Hfinal.
  { eapply Permutation_in; [apply Permutation_map, HS|].
    rewrite Hmore, map_app, in_app_iff. now left. }
  apply in_map_iff in Hfinal as (e & He & Hin'). eauto.
Qed.

Lemma keyword_line_recorded_witness :
  exists e,
    In e (sort.Slice less [entrySELECT; entryWHERE; entryNAME])
    /\ Match e = regexp.FindString pipeRE "WHERE".
Proof.
  refine (keyword_line_recorded asciiOnly (sort.Slice less) exampleInput
            [entrySELECT; entryWHERE; entryNAME]
            [] ["SELECT"] [""; "unreserved_keyword:"; "NAME"]
            "reserved_keyword:" "WHERE" Slice_less_contract _ _ _ _ _ _).
  - vm_compute. reflexivity.
  - vm_compute. reflexivity.
  - reflexivity.
  - repeat constructor.
  - reflexivity.
  - reflexivity.
Defined.

(** * One entry per line at most *)

Lemma iteration_length M st line st' :
  iteration M st line = Done st' ->
  length (data st') <=
  length (data st) + length (List.filter isKeywordLine [line]).
Proof.
  apply (iteration_cases M st line
           (fun r => r = Done st' ->
              length (data st') <=
              length (data st) + length (List.filter isKeywordLine [line]))).
  - intros _. destruct (categories !! _); [|discriminate].
    intros [= <-]. simpl. lia.
  - intros _ [= <-]. simpl. lia.
  - intros Hh Hl _ _ _ [= <-]. simpl.
    assert (isKeywordLine line = true) as -> by now apply isKeywordLine_true.
    rewrite length_app. simpl. lia.
  - intros _ _ [= <-]. lia.
Qed.

Lemma loop_length M lines st st' :
  loop M lines st = Done st' ->
  length (data st') <=
  length (data st) + length (List.filter isKeywordLine lines).
Proof.
  revert st; induction lines as [|line lines IH]; intros st.
  - simpl. intros [= <-]. lia.
  - change (loop M (line :: lines) st) with
      (match iteration M st line with
       | Done st1 => loop M lines st1
       | Fatal f => Fatal f
       end).
    destruct (iteration M st line) as [st1|] eqn:E; [|discriminate].
    intros H%IH. apply iteration_length in E.
    change (line :: lines) with ([line] ++ lines).
    rewrite List.filter_app, length_app. lia.
Qed.

(** X5. A line gives one entry at most, whatever the number of words it
    holds: the entries handed to the template are no more than the keyword
    lines (not a header, not empty) of the input. *)
Theorem one_entry_per_line_at_most
    (MapToLower : string -> string) (Slice : list entry -> list entry)
    (stdin : Stdin) (d : list entry) :
  sort.SliceContract less Slice ->
  scanning MapToLower stdin = Done d ->
  length (Slice d)
  <= length (List.filter isKeywordLine (fst (bufio.Scan stdin))).
Proof.
  intros HS (st & Hloop & _ & ->)%scanning_Done.
  rewrite <- (Permutation_length (proj1 (HS (data st)))).
  apply loop_length in Hloop. simpl in Hloop. exact Hloop.
Qed.

Lemma one_entry_per_line_at_most_witness :
  length (sort.Slice less
            [ {| Lower := "abort action"; Match := "ABORT ACTION";
                 Category := "U" |} ])
  <= length (List.filter isKeywordLine
               (fst (bufio.Scan
                  {| bytes := unlines ["unreserved_keyword:"; "ABORT ACTION"];
                     failure := None |}))).
Proof.
  refine (one_entry_per_line_at_most asciiOnly (sort.Slice less)
            {| bytes := unlines ["unreserved_keyword:"; "ABORT ACTION"];
               failure := None |}
            _ Slice_less_contract _).
  vm_compute. reflexivity.
Defined.

(** * The scanner gives the lines back *)

Lemma length_app_s (s t : string) :
  String.length (s +:+ t) = String.length s + String.length t.
Proof.
  induction s as [|a s IH]; [reflexivity|].
  rewrite app_cons. simpl. now rewrite IH.
Qed.

Lemma rawLines_cons c s :
  bufio.rawLines (String c s) =
  if Ascii.eqb c newline then "" :: bufio.rawLines s
  else match bufio.rawLines s with
       | [] => [String c ""]
       | l :: ls => String c l :: ls
       end.
Proof. reflexivity. Qed.

Lemma rawLines_line l rest :
  oneLine l = true ->
  bufio.rawLines (l +:+ nl +:+ rest) = l :: bufio.rawLines rest.
Proof.
  induction l as [|c l IH].
  - intros _. rewrite app_empty_l. unfold nl. rewrite app_cons, app_empty_l.
    now rewrite rawLines_cons, Ascii.eqb_refl.
  - rewrite oneLine_cons. intros [Hc Hl]%andb_true_iff.
    apply negb_true_iff in Hc.
    now rewrite app_cons, rawLines_cons, Hc, (IH Hl).
Qed.

Lemma rawLines_last l :
  oneLine l = true -> l <> "" -> bufio.rawLines l = [l].
Proof.
  induction l as [|c l IH]; [easy|].
  rewrite oneLine_cons. intros [Hc Hl]%andb_true_iff _.
  apply negb_true_iff in Hc. rewrite rawLines_cons, Hc.
  destruct l as [|c' l']; [reflexivity|]. now rewrite IH.
Qed.

Lemma unlines_cons l ls : unlines (l :: ls) = l +:+ nl +:+ unlines ls.
Proof. reflexivity. Qed.

Lemma unlinesCRLF_cons l ls :
  unlinesCRLF (l :: ls) = l +:+ crlf +:+ unlinesCRLF ls.
Proof. reflexivity. Qed.

Lemma scannable_true l :
  scannable l = true ->
  oneLine l = true
  /\ (N.of_nat (String.length l) + 1 < bufio.MaxScanTokenSize)%N
  /\ bufio.dropCR l = l.
Proof.
  unfold scannable. intros [[H1 H2]%andb_true_iff H3]%andb_true_iff.
  apply N.ltb_lt in H2. apply String.eqb_eq in H3. auto.
Qed.

Lemma tokens_short l raw :
  (N.of_nat (String.length l) < bufio.MaxScanTokenSize)%N ->
  bufio.tokens (l :: raw) =
  (bufio.dropCR l :: fst (bufio.tokens raw), snd (bufio.tokens raw)).
Proof.
  intros H. simpl. apply N.leb_gt in H. rewrite H.
  now destruct (bufio.tokens raw).
Qed.

Lemma dropCR_added l : bufio.dropCR (l +:+ String carriage_return "") = l.
Proof.
  induction l as [|c l IH]; [reflexivity|].
  rewrite app_cons. destruct l as [|c' l'].
  - reflexivity.
  - rewrite app_cons in IH |- *.
    change (bufio.dropCR (String c (String c' ?s)))
      with (String c (bufio.dropCR (String c' s))).
    now rewrite IH.
Qed.

Lemma Scan_unlines_last ls lst f :
  Forall (fun l => scannable l = true) ls ->
  scannable lst = true -> lst <> "" ->
  bufio.Scan {| bytes := unlines ls +:+ lst; failure := f |}
  = (ls ++ [lst], f).
Proof.
  intros Hls [H1 [H2 H3]]%scannable_true Hne. unfold bufio.Scan. simpl bytes.
  assert (bufio.tokens (bufio.rawLines (unlines ls +:+ lst))
          = (ls ++ [lst], None)) as ->; [|reflexivity].
  induction Hls as [|l ls [Hl1 [Hl2 Hl3]]%scannable_true _ IH].
  - rewrite app_empty_l, (rawLines_last _ H1 Hne).
    rewrite tokens_short by lia. now rewrite H3.
  - rewrite unlines_cons, !app_assoc_s, (rawLines_line _ _ Hl1).
    rewrite tokens_short by lia. rewrite IH, Hl3. reflexivity.
Qed.

Lemma Scan_unlines ls f :
  Forall (fun l => scannable l = true) ls ->
  bufio.Scan {| bytes := unlines ls; failure := f |} = (ls, f).
Proof.
  intros Hls. unfold bufio.Scan. simpl bytes.
  assert (bufio.tokens (bufio.rawLines (unlines ls)) = (ls, None)) as ->;
    [|reflexivity].
  induction Hls as [|l ls [Hl1 [Hl2 Hl3]]%scannable_true _ IH];
    [reflexivity|].
  rewrite unlines_cons, (rawLines_line _ _ Hl1).
  rewrite tokens_short by lia. rewrite IH, Hl3. reflexivity.
Qed.

Lemma Scan_unlinesCRLF ls f :
  Forall (fun l => scannable l = true) ls ->
  bufio.Scan {| bytes := unlinesCRLF ls; failure := f |} = (ls, f).
Proof.
  intros Hls. unfold bufio.Scan. simpl bytes.
  assert (bufio.tokens (bufio.rawLines (unlinesCRLF ls)) = (ls, None)) as ->;
    [|reflexivity].
  induction Hls as [|l ls [Hl1 [Hl2 Hl3]]%scannable_true _ IH];
    [reflexivity|].
  rewrite unlinesCRLF_cons. unfold crlf.
  change (l +:+ String carriage_return nl +:+ unlinesCRLF ls)
    with (l +:+ (String carriage_return "" +:+ nl) +:+ unlinesCRLF ls).
  rewrite <- !app_assoc_s, !app_assoc_s, <- (app_assoc_s l).
  rewrite rawLines_line.
  - rewrite tokens_short.
    + now rewrite IH, dropCR_added.
    + rewrite length_app_s. simpl. lia.
  - now rewrite oneLine_app, Hl1.
Qed.

Lemma main_with_Scan M S in1 in2 out :
  bufio.Scan in1 = bufio.Scan in2 ->
  main_with M S in1 out = main_with M S in2 out.
Proof. intros H. unfold main_with, scanning. now rewrite H. Qed.

(** X6. Line endings do not matter: an input whose lines end with carriage
    return and line feed gives the same run as the same lines ended by a
    line feed alone. *)
Theorem crlf_same_as_lf
    (MapToLower : string -> string) (Slice : list entry -> list entry)
    (ls : list string) (f : option string) (stdout : Stdout) :
  Forall (fun l => scannable l = true) ls ->
  bufio.Scan {| bytes := unlinesCRLF ls; failure := f |} = (ls, f)
  /\ main_with MapToLower Slice
       {| bytes := unlinesCRLF ls; failure := f |} stdout
     = main_with MapToLower Slice
         {| bytes := unlines ls; failure := f |} stdout.
Proof.
  intros Hls. split; [now apply Scan_unlinesCRLF|].
  apply main_with_Scan. now rewrite Scan_unlinesCRLF, Scan_unlines.
Qed.

Lemma crlf_same_as_lf_witness :
  main_with asciiOnly (sort.Slice less)
    {| bytes := unlinesCRLF ["reserved_keyword:"; "SELECT"; ""; "WHERE"];
       failure := None |} emptyStdout
  = main_with asciiOnly (sort.Slice less)
      {| bytes := unlines ["reserved_keyword:"; "SELECT"; ""; "WHERE"];
         failure := None |} emptyStdout.
Proof.
  refine (proj2 (crlf_same_as_lf asciiOnly (sort.Slice less)
            ["reserved_keyword:"; "SELECT"; ""; "WHERE"] None emptyStdout _)).
  repeat constructor.
Defined.

(** X7. The line feed after the last line is optional: the scanner delivers
    a last line that is not empty whether a line feed ends it or not, and
    the run is the same. *)
Theorem final_newline_optional
    (MapToLower : string -> string) (Slice : list entry -> list entry)
    (ls : list string) (lst : string) (f : option string) (stdout : Stdout) :
  Forall (fun l => scannable l = true) ls ->
  scannable lst = true ->
  lst <> "" ->
  bufio.Scan {| bytes := unlines ls +:+ lst; failure := f |}
  = (ls ++ [lst], f)
  /\ main_with MapToLower Slice
       {| bytes := unlines ls +:+ lst; failure := f |} stdout
     = main_with MapToLower Slice
         {| bytes := unlines (ls ++ [lst]); failure := f |} stdout.
Proof.
  intros Hls Hlst Hne. split; [now apply Scan_unlines_last|].
  apply main_with_Scan. rewrite Scan_unlines_last by assumption.
  rewrite Scan_unlines; [reflexivity|].
  apply Forall_app. split; [assumption|]. now repeat constructor.
Qed.

Lemma final_newline_optional_witness :
  main_with asciiOnly (sort.Slice less)
    {| bytes := unlines ["reserved_keyword:"; "SELECT"] +:+ "WHERE";
       failure := None |} emptyStdout
  = main_with asciiOnly (sort.Slice less)
      {| bytes := unlines (["reserved_keyword:"; "SELECT"] ++ ["WHERE"]);
         failure := None |} emptyStdout.
Proof.
  refine (proj2 (final_newline_optional asciiOnly (sort.Slice less)
            ["reserved_keyword:"; "SELECT"] "WHERE" None emptyStdout _ _ _)).
  - repeat constructor.
  - reflexivity.
  - discriminate.
Defined.

(** * The order of the lines of a section *)

Lemma sameEntries_refl st : sameEntries st st.
Proof. repeat split; reflexivity. Qed.

Lemma sameEntries_trans st1 st2 st3 :
  sameEntries st1 st2 -> sameEntries st2 st3 -> sameEntries st1 st3.
Proof.
  intros (H1 & H2 & H3 & H4) (G1 & G2 & G3 & G4).
  repeat split; try congruence. now transitivity (data st2).
Qed.

Lemma iteration_recordMatch M st line :
  isKeywordLine line = true ->
  iteration M st line
  = Done (recordMatch M st (regexp.FindString pipeRE line)).
Proof.
  intros [Hh Hl]%isKeywordLine_true.
  rewrite iteration_keyword by assumption. cbv zeta. unfold recordMatch.
  now destruct (_ && _).
Qed.

Lemma loop_recordLines M lines st :
  Forall (fun l => isKeywordLine l = true) lines ->
  loop M lines st = Done (recordLines M lines st).
Proof.
  intros H; revert st; induction H as [|line lines Hl _ IH]; intros st;
    [reflexivity|].
  simpl. now rewrite iteration_recordMatch, IH.
Qed.

Lemma iteration_sameEntries M st1 st2 line :
  sameEntries st1 st2 ->
  sameResult (iteration M st1 line) (iteration M st2 line).
Proof.
  destruct st1 as [k1 c1 s1 d1], st2 as [k2 c2 s2 d2].
  intros (Hk & Hc & Hs & Hd). simpl in Hk, Hc, Hs, Hd. subst k2 c2 s2.
  unfold iteration, isSeen. simpl.
  destruct (negb (String.eqb (regexp.FindString keywordRE line) "")).
  - destruct (String.eqb (default "" (categories !! _)) "");
      simpl; [reflexivity|]. repeat split; assumption.
  - destruct (String.eqb line ""); simpl; [repeat split; assumption|].
    destruct (_ && _); simpl; repeat split; try assumption.
    now apply Permutation_app_tail.
Qed.

Lemma loop_sameEntries M lines st1 st2 :
  sameEntries st1 st2 ->
  sameResult (loop M lines st1) (loop M lines st2).
Proof.
  revert st1 st2; induction lines as [|line lines IH]; intros st1 st2 H.
  - exact H.
  - simpl. pose proof (iteration_sameEntries M _ _ line H) as Hi.
    destruct (iteration M st1 line), (iteration M st2 line);
      simpl in Hi; try contradiction; auto.
Qed.

Lemma recordMatch_sameEntries M st1 st2 m :
  sameEntries st1 st2 ->
  sameEntries (recordMatch M st1 m) (recordMatch M st2 m).
Proof.
  destruct st1 as [k1 c1 s1 d1], st2 as [k2 c2 s2 d2].
  intros (Hk & Hc & Hs & Hd). simpl in Hk, Hc, Hs, Hd. subst k2 c2 s2.
  unfold recordMatch, isSeen. simpl.
  destruct (_ && _); repeat split; simpl; try assumption.
  now apply Permutation_app_tail.
Qed.

Lemma recordLines_sameEntries M lines st1 st2 :
  sameEntries st1 st2 ->
  sameEntries (recordLines M lines st1) (recordLines M lines st2).
Proof.
  revert st1 st2; induction lines as [|line lines IH]; intros st1 st2 H;
    [exact H|].
  apply IH. now apply recordMatch_sameEntries.
Qed.

Lemma recordMatch_flag M st m :
  keyword (recordMatch M st m) = keyword st
  /\ category (recordMatch M st m) = category st.
Proof. unfold recordMatch. now destruct (_ && _). Qed.

Lemma recordMatch_seen_other M st a b :
  a <> b -> isSeen (recordMatch M st a) b = isSeen st b.
Proof.
  intros Hab. unfold recordMatch. destruct (_ && _); [|reflexivity].
  unfold isSeen. simpl. now rewrite lookup_insert_ne.
Qed.

(** Two keyword lines can be read in either order. *)
Lemma recordMatch_swap M st a b :
  sameEntries (recordMatch M (recordMatch M st a) b)
              (recordMatch M (recordMatch M st b) a).
Proof.
  destruct (string_dec a b) as [->|Hab]; [apply sameEntries_refl|].
  unfold recordMatch at 1 3.
  destruct (recordMatch_flag M st a) as [-> ->].
  destruct (recordMatch_flag M st b) as [-> ->].
  rewrite (recordMatch_seen_other M st a b Hab).
  rewrite (recordMatch_seen_other M st b a) by congruence.
  unfold recordMatch.
  destruct (keyword st && negb (String.eqb a "") && negb (isSeen st a)),
    (keyword st && negb (String.eqb b "") && negb (isSeen st b));
    simpl; try apply sameEntries_refl.
  repeat split; simpl.
  - now apply insert_insert_ne.
  - rewrite <- !app_assoc. apply Permutation_app_head. simpl. apply perm_swap.
Qed.

Lemma recordLines_Permutation M l1 l2 :
  Permutation l1 l2 ->
  forall st1 st2, sameEntries st1 st2 ->
    sameEntries (recordLines M l1 st1) (recordLines M l2 st2).
Proof.
  induction 1 as [|x l l' _ IH|x y l|l l' l'' _ IH1 _ IH2]; intros st1 st2 H.
  - exact H.
  - apply IH. now apply recordMatch_sameEntries.
  - change (sameEntries
              (recordLines M l
                 (recordMatch M
                    (recordMatch M st1 (regexp.FindString pipeRE y))
                    (regexp.FindString pipeRE x)))
              (recordLines M l
                 (recordMatch M
                    (recordMatch M st2 (regexp.FindString pipeRE x))
                    (regexp.FindString pipeRE y)))).
    apply recordLines_sameEntries.
    eapply sameEntries_trans; [apply recordMatch_swap|].
    now apply recordMatch_sameEntries, recordMatch_sameEntries.
  - eapply sameEntries_trans; [apply IH1; exact H|].
    apply IH2, sameEntries_refl.
Qed.

Lemma loop_Permutation M pre body1 body2 post :
  Permutation body1 body2 ->
  Forall (fun l => isKeywordLine l = true) body1 ->
  sameResult (loop M (pre ++ body1 ++ post) start)
             (loop M (pre ++ body2 ++ post) start).
Proof.
  intros Hp H1.
  assert (Forall (fun l => isKeywordLine l = true) body2) as H2
    by (eapply Permutation_Forall; eassumption).
  rewrite !loop_app.
  destruct (loop M pre start) as [st|f]; [|reflexivity].
  rewrite !loop_app.
  rewrite (loop_recordLines M body1 st H1), (loop_recordLines M body2 st H2).
  apply loop_sameEntries, recordLines_Permutation;
    [assumption|apply sameEntries_refl].
Qed.

(** X8. The order of the keyword lines of a section does not matter: when
    the lines between two places of the input are keyword lines (not
    headers, not empty), any other order of them gives the same run, with
    the same output and the same end. *)
Theorem keyword_lines_order_irrelevant
    (MapToLower : string -> string) (Slice : list entry -> list entry)
    (pre body1 body2 post : list string) (f : option string)
    (stdout : Stdout) :
  sort.SliceContract less Slice ->
  Permutation body1 body2 ->
  Forall (fun l => isKeywordLine l = true) body1 ->
  Forall (fun l => scannable l = true) (pre ++ body1 ++ post) ->
  main_with MapToLower Slice
    {| bytes := unlines (pre ++ body1 ++ post); failure := f |} stdout
  = main_with MapToLower Slice
      {| bytes := unlines (pre ++ body2 ++ post); failure := f |} stdout.
Proof.
  intros HS Hp Hkw Hscan1.
  assert (Forall (fun l => scannable l = true) (pre ++ body2 ++ post))
    as Hscan2.
  { eapply Permutation_Forall; [|exact Hscan1].
    now apply Permutation_app_head, Permutation_app_tail. }
  unfold main_with, scanning. rewrite !Scan_unlines by assumption.
  pose proof (loop_Permutation MapToLower pre body1 body2 post Hp Hkw) as H.
  destruct (loop MapToLower (pre ++ body1 ++ post) start) as [st1|f1] eqn:E1,
    (loop MapToLower (pre ++ body2 ++ post) start) as [st2|f2] eqn:E2;
    simpl in H; try contradiction; [|now subst].
  destruct f; [reflexivity|].
  assert (Slice (data st1) = Slice (data st2)) as ->; [|reflexivity].
  destruct H as (_ & _ & _ & Hd).
  assert (List.NoDup (map Match (data st1))) as N1
    by (eapply match_once, loop_consistent;
        [apply start_consistent|exact E1]).
  assert (List.NoDup (map Match (data st2))) as N2
    by (eapply match_once, loop_consistent;
        [apply start_consistent|exact E2]).
  apply ascending_unique; try now apply contract_ascending.
  transitivity (data st1); [symmetry; apply HS|].
  transitivity (data st2); [assumption|apply HS].
Qed.

Lemma keyword_lines_order_irrelevant_witness :
  main_with asciiOnly (sort.Slice less)
    {| bytes := unlines (["reserved_keyword:"] ++ ["WHERE"; "SELECT"] ++ [""]);
       failure := None |} emptyStdout
  = main_with asciiOnly (sort.Slice less)
      {| bytes := unlines
                    (["reserved_keyword:"] ++ ["SELECT"; "WHERE"] ++ [""]);
         failure := None |} emptyStdout.
Proof.
  refine (keyword_lines_order_irrelevant asciiOnly (sort.Slice less)
            ["reserved_keyword:"] ["WHERE"; "SELECT"] ["SELECT"; "WHERE"] [""]
            None emptyStdout Slice_less_contract _ _ _).
  - apply perm_swap.
  - repeat constructor.
  - repeat constructor.
Defined.

(** * The generated lookup function *)

Lemma GetKeywordID_miss d k :
  ~ In k (map Lower d) -> GetKeywordID d k = "IDENT".
Proof.
  induction d as [|x d IH]; simpl; [reflexivity|].
  intros H. destruct (String.eqb_spec k (Lower x)) as [->|_]; [|auto].
  elim H. now left.
Qed.

Lemma GetKeywordID_hit d e :
  List.NoDup (map Lower d) -> In e d -> GetKeywordID d (Lower e) = Match e.
Proof.
  induction d as [|x d IH]; simpl; [easy|].
  intros Hnd. inversion_clear Hnd as [|? ? Hx Hd]. intros [->|He].
  - now rewrite String.eqb_refl.
  - destruct (String.eqb_spec (Lower e) (Lower x)) as [Heq|_]; [|auto].
    elim Hx. rewrite <- Heq. now apply in_map.
Qed.

Lemma isUpper_lowerByte c : isUpper (strings.lowerByte c) = false.
Proof. destruct c as [[] [] [] [] [] [] [] []]; vm_compute; reflexivity. Qed.

Lemma lowerASCII_no_upper s : any_byte isUpper (strings.lowerASCII s) = false.
Proof.
  induction s as [|c s IH]; [reflexivity|].
  simpl. now rewrite isUpper_lowerByte, IH.
Qed.

Lemma plainToken_both m :
  plainToken m = true ->
  all_bytes isASCIIByte m = true
  /\ all_bytes (fun c => negb (isLower c)) m = true.
Proof.
  unfold plainToken. induction m as [|c m IH]; simpl; [easy|].
  intros [[H1 H2]%andb_true_iff H3]%andb_true_iff.
  destruct (IH H3) as [-> ->]. now rewrite H1, H2.
Qed.

Lemma plain_lower_once M d :
  List.NoDup (map Match d) ->
  Forall (fun e => Lower e = strings.ToLower M (Match e)) d ->
  Forall (fun e => plainToken (Match e) = true) d ->
  List.NoDup (map Lower d).
Proof.
  induction d as [|e d IH]; intros Hnd Hlow Hplain; [constructor|].
  inversion_clear Hnd as [|? ? He Hd]. inversion_clear Hlow as [|? ? Le Ld].
  inversion_clear Hplain as [|? ? Pe Pd].
  simpl. constructor; [|auto].
  intros Hin. apply He. apply in_map_iff in Hin as (e' & Heq & He').
  apply in_map_iff. exists e'. split; [|assumption].
  rewrite List.Forall_forall in Ld, Pd.
  rewrite Le, (Ld e' He') in Heq. unfold strings.ToLower in Heq.
  destruct (plainToken_both _ Pe) as [Ae Ne].
  destruct (plainToken_both _ (Pd e' He')) as [Ae' Ne'].
  rewrite Ae, Ae' in Heq. now apply lowerASCII_inj.
Qed.

Lemma scanning_wellFormed M stdin d :
  scanning M stdin = Done d -> Forall (wellFormed M) d.
Proof.
  intros (st & Hloop & _ & ->)%scanning_Done.
  eapply loop_wellFormed; [|eassumption].
  split; [constructor|discriminate].
Qed.

(** X9. The generated lookup function finds every keyword of the table: when
    the tokens recorded are ASCII without lower-case letter, looking up the
    [Lower] key of an entry returns the token of that entry, and looking up
    a string that is no key of the table returns IDENT. *)
Theorem lookup_round_trip
    (MapToLower : string -> string) (Slice : list entry -> list entry)
    (stdin : Stdin) (d : list entry) :
  sort.SliceContract less Slice ->
  scanning MapToLower stdin = Done d ->
  Forall (fun e => plainToken (Match e) = true) d ->
  (forall e, In e (Slice d) -> GetKeywordID (Slice d) (Lower e) = Match e)
  /\ (forall k, ~ In k (map Lower (Slice d)) ->
        GetKeywordID (Slice d) k = "IDENT").
Proof.
  intros HS Hscan Hplain. split; [|intros k; apply GetKeywordID_miss].
  intros e He. apply GetKeywordID_hit; [|assumption].
  eapply Permutation_NoDup; [apply Permutation_map, HS|].
  eapply plain_lower_once; eauto using scanning_match_once, scanning_lower.
Qed.

Lemma lookup_round_trip_witness :
  GetKeywordID (sort.Slice less [entrySELECT; entryWHERE; entryNAME])
    (Lower entryWHERE) = Match entryWHERE.
Proof.
  refine (proj1 (lookup_round_trip asciiOnly (sort.Slice less) exampleInput
            [entrySELECT; entryWHERE; entryNAME] Slice_less_contract _ _)
            entryWHERE _).
  - vm_compute. reflexivity.
  - repeat constructor.
  - simpl. auto.
Defined.

(** X10. The generated lookup function is case-sensitive: when the tokens
    recorded are ASCII, no key of the table holds an upper-case letter, so
    looking up a token as it is written in the grammar returns IDENT; the
    caller has to lower the case first. *)
Theorem lookup_case_sensitive
    (MapToLower : string -> string) (Slice : list entry -> list entry)
    (stdin : Stdin) (d : list entry) :
  sort.SliceContract less Slice ->
  scanning MapToLower stdin = Done d ->
  Forall (fun e => all_bytes isASCIIByte (Match e) = true) d ->
  Forall (fun e => any_byte isUpper (Lower e) = false) (Slice d)
  /\ forall e, In e (Slice d) -> GetKeywordID (Slice d) (Match e) = "IDENT".
Proof.
  intros HS Hscan Hascii.
  pose proof (scanning_wellFormed _ _ _ Hscan) as Hwf.
  assert (Forall (fun e => any_byte isUpper (Lower e) = false) (Slice d))
    as Hkeys.
  { eapply Permutation_Forall; [apply HS|].
    rewrite List.Forall_forall in Hwf, Hascii |- *. intros e He.
    destruct (Hwf e He) as (_ & _ & _ & ->). unfold strings.ToLower.
    rewrite (Hascii e He). apply lowerASCII_no_upper. }
  split; [assumption|]. intros e He. apply GetKeywordID_miss.
  intros (e' & Heq & He')%in_map_iff.
  rewrite List.Forall_forall in Hkeys. specialize (Hkeys e' He').
  assert (wellFormed MapToLower e) as (_ & Hup & _).
  { rewrite List.Forall_forall in Hwf. apply Hwf.
    eapply Permutation_in; [symmetry; apply HS|exact He]. }
  rewrite Heq in Hkeys. destruct (Match e) as [|c m]; [discriminate|].
  simpl in Hup, Hkeys. rewrite Hup in Hkeys. discriminate.
Qed.

Lemma lookup_case_sensitive_witness :
  GetKeywordID (sort.Slice less [entrySELECT; entryWHERE; entryNAME])
    (Match entrySELECT) = "IDENT".
Proof.
  refine (proj2 (lookup_case_sensitive asciiOnly (sort.Slice less)
            exampleInput [entrySELECT; entryWHERE; entryNAME]
            Slice_less_contract _ _) entrySELECT _).
  - vm_compute. reflexivity.
  - repeat constructor.
  - simpl. auto.
Defined.

(** * Lines too long for the scanner *)

Lemma tokens_long raw :
  Exists (fun l => (bufio.MaxScanTokenSize <= N.of_nat (String.length l))%N)
    raw ->
  snd (bufio.tokens raw) = Some bufio.ErrTooLong.
Proof.
  induction raw as [|l raw IH]; intros H; [inversion H|].
  simpl. destruct (_ <=? _)%N eqn:E; [reflexivity|].
  inversion_clear H as [? ? Hl|? ? Hraw].
  - apply N.leb_le in Hl. congruence.
  - specialize (IH Hraw). now destruct (bufio.tokens raw).
Qed.

Lemma rawLines_starts l b :
  oneLine l = true -> l <> "" ->
  exists rest tl, bufio.rawLines (l +:+ b) = (l +:+ rest) :: tl.
Proof.
  induction l as [|c l IH]; [easy|].
  rewrite oneLine_cons. intros [Hc Hl]%andb_true_iff _.
  apply negb_true_iff in Hc. rewrite app_cons, rawLines_cons, Hc.
  destruct l as [|c' l'].
  - rewrite app_empty_l. destruct (bufio.rawLines b) as [|x xs].
    + now exists "", [].
    + now exists x, xs.
  - destruct (IH Hl) as (rest & tl & ->); [discriminate|].
    now exists rest, tl.
Qed.

Lemma rawLines_long a l b :
  oneLine l = true ->
  (bufio.MaxScanTokenSize <= N.of_nat (String.length l))%N ->
  Exists (fun l => (bufio.MaxScanTokenSize <= N.of_nat (String.length l))%N)
    (bufio.rawLines (a +:+ l +:+ b)).
Proof.
  intros Hl Hlong. induction a as [|c a IH].
  - rewrite app_empty_l.
    destruct (rawLines_starts l b Hl) as (rest & tl & ->).
    + intros ->. simpl in Hlong. unfold bufio.MaxScanTokenSize in Hlong. lia.
    + left. rewrite length_app_s. lia.
  - rewrite app_cons, rawLines_cons.
    destruct (Ascii.eqb c newline); [now right|].
    destruct (bufio.rawLines (a +:+ l +:+ b)) as [|x xs]; [inversion IH|].
    inversion_clear IH as [? ? Hx|? ? Hxs]; [left|now right].
    simpl. lia.
Qed.

(** X11. A line of 65536 bytes or more cannot be read: the scanner stops
    there with its error "token too long", and the run ends with a fatal
    error -- this read error, or the unknown header met before the long
    line -- and writes nothing. *)
Theorem long_line_fatal
    (MapToLower : string -> string) (Slice : list entry -> list entry)
    (stdin : Stdin) (stdout : Stdout) (a l b : string) :
  bytes stdin = a +:+ l +:+ b ->
  oneLine l = true ->
  (bufio.MaxScanTokenSize <= N.of_nat (String.length l))%N ->
  snd (bufio.Scan stdin) = Some bufio.ErrTooLong
  /\ exists f,
       main_with MapToLower Slice stdin stdout = (stdout, Some f)
       /\ ((exists h, f = UnknownKeywordType h)
           \/ f = ReadingStandardInput bufio.ErrTooLong).
Proof.
  intros Hbytes Hl Hlong.
  assert (snd (bufio.Scan stdin) = Some bufio.ErrTooLong) as Herr.
  { unfold bufio.Scan. rewrite Hbytes.
    pose proof (tokens_long _ (rawLines_long a l b Hl Hlong)) as H.
    destruct (bufio.tokens _) as [ts e]. simpl in H. now subst e. }
  split; [assumption|].
  unfold main_with, scanning.
  destruct (bufio.Scan stdin) as [lines err]. simpl in Herr. subst err.
  destruct (loop MapToLower lines start) as [st|f] eqn:E.
  - eexists. split; [reflexivity|]. now right.
  - exists f. split; [reflexivity|]. left. eapply loop_Fatal; eauto.
Qed.

Lemma long_line_fatal_witness :
  snd (bufio.Scan longLineInput) = Some bufio.ErrTooLong.
Proof.
  refine (proj1 (long_line_fatal asciiOnly (sort.Slice less) longLineInput
            emptyStdout (unlines ["reserved_keyword:"]) longLine nl _ _ _)).
  - reflexivity.
  - vm_compute. reflexivity.
  - vm_compute. discriminate.
Defined.

(** * What reaches the output stream *)

Lemma substring_prefix n (p : string) :
  exists rest, p = substring 0 n p +:+ rest.
Proof.
  revert p; induction n as [|n IH]; intros p.
  - exists p. now destruct p.
  - destruct p as [|c p]; [now exists ""|].
    destruct (IH p) as (rest & H). exists rest.
    simpl. now rewrite app_cons, <- H.
Qed.

Lemma Write_prefix w p w' e :
  Write w p = (w', e) ->
  exists q rest,
    p = q +:+ rest /\ written w' = written w +:+ q /\ (e = None -> rest = "").
Proof.
  unfold Write. destruct (room w) as [[n err]|].
  - destruct (_ <=? _)%N; intros [= <- <-]; simpl.
    + exists p, "". now rewrite app_empty_r.
    + destruct (substring_prefix (N.to_nat n) p) as (rest & H).
      exists (substring 0 (N.to_nat n) p), rest. now repeat split.
  - intros [= <- <-]. exists p, "". now rewrite app_empty_r.
Qed.

Lemma writeAll_prefix ps w w' e :
  template.writeAll ps w = (w', e) ->
  exists q rest,
    joined ps = q +:+ rest /\ written w' = written w +:+ q
    /\ (e = None -> rest = "").
Proof.
  revert w; induction ps as [|p ps IH]; intros w; simpl.
  - intros [= <- <-]. exists "", "". now rewrite !app_empty_r.
  - destruct (Write w p) as [w1 [err|]] eqn:E.
    + intros [= <- <-].
      apply Write_prefix in E as (q & rest & -> & Hw & _).
      exists q, (rest +:+ joined ps). rewrite app_assoc_s.
      now repeat split.
    + intros H. apply Write_prefix in E as (q & rest & -> & Hw & Hrest).
      rewrite (Hrest eq_refl), app_empty_r.
      apply IH in H as (q' & rest' & -> & Hw' & Hrest').
      exists (q +:+ q'), rest'. rewrite Hw', Hw, !app_assoc_s.
      now repeat split.
Qed.

Lemma joined_pieces d :
  joined (flat_map (template.pieces d) tmpl) = generated d.
Proof.
  pose proof (Execute_unlimited "" d) as H.
  unfold template.Execute in H. rewrite writeAll_unlimited in H.
  exact (f_equal (fun x => written (fst x)) H).
Qed.

(** X12. The output stream only grows, and by the beginning of the generated
    file: whatever the stream accepts, what a run adds to it is a prefix of
    the text of the template for the sorted entries, and the whole text when
    the run ends without error. *)
Theorem output_is_prefix_of_generated
    (MapToLower : string -> string) (Slice : list entry -> list entry)
    (stdin : Stdin) (stdout out : Stdout) (r : option fatal)
    (d : list entry) :
  scanning MapToLower stdin = Done d ->
  main_with MapToLower Slice stdin stdout = (out, r) ->
  exists p rest,
    generated (Slice d) = p +:+ rest
    /\ written out = written stdout +:+ p
    /\ (r = None -> rest = "").
Proof.
  intros Hscan. unfold main_with. rewrite Hscan. unfold template.Execute.
  destruct (template.writeAll _ stdout) as [w' e] eqn:E.
  apply writeAll_prefix in E as (p & rest & Hj & Hw & Hrest).
  rewrite joined_pieces in Hj.
  destruct e as [err|]; intros [= <- <-]; exists p, rest;
    repeat split; auto; discriminate.
Qed.

Lemma output_is_prefix_of_generated_witness :
  exists p rest,
    generated (sort.Slice less [entrySELECT; entryWHERE; entryNAME])
    = p +:+ rest
    /\ "// Code ge" = "" +:+ p
    /\ (Some (ExecuteFailed "write /dev/stdout: no space left on device")
        = None -> rest = "").
Proof.
  refine (output_is_prefix_of_generated asciiOnly (sort.Slice less)
            exampleInput tenBytes
            {| written := "// Code ge";
               room := Some (0%N,
                             "write /dev/stdout: no space left on device") |}
            _ [entrySELECT; entryWHERE; entryNAME] _ _).
  - vm_compute. reflexivity.
  - vm_compute. reflexivity.
Defined.
